(** * audio2video: caption timing, subtitle rendering and command planning

    A shallow embedding of [server.mjs] and the properties of its
    caption pipeline: the SRT time codec and serializer, the uniform
    cue allocation of the alignment route, the colour translation and
    command construction of the video route, and the request signer.

    JavaScript strings are sequences of UTF-16 code units, numbers are
    IEEE 754 binary64 values (taken from [SpecFloat]); integer-valued
    numbers are carried as [Z]. *)

From Stdlib Require Import String Ascii.
From Stdlib Require Import ZArith List Bool Lia.
From Stdlib Require Import Floats.SpecFloat.
Import ListNotations.
Local Open Scope Z_scope.

(* ================================================================= *)
(** ** JavaScript strings *)

Module JS.

Definition code_unit := Z.
Definition jsstring := list code_unit.

(** Source literals are UTF-8 text; [js] decodes one into the UTF-16
    code units the engine holds. *)
Fixpoint utf8_units (bs : list Z) : jsstring :=
  match bs with
  | [] => []
  | b0 :: t0 =>
    if b0 <? 0x80 then b0 :: utf8_units t0
    else
      match t0 with
      | [] => [0xFFFD]
      | b1 :: t1 =>
        if b0 <? 0xE0 then ((b0 - 0xC0) * 64 + (b1 - 0x80)) :: utf8_units t1
        else
          match t1 with
          | [] => [0xFFFD]
          | b2 :: t2 =>
            if b0 <? 0xF0
            then ((b0 - 0xE0) * 4096 + (b1 - 0x80) * 64 + (b2 - 0x80))
                   :: utf8_units t2
            else
              match t2 with
              | [] => [0xFFFD]
              | b3 :: t3 =>
                let cp := (b0 - 0xF0) * 262144 + (b1 - 0x80) * 4096
                          + (b2 - 0x80) * 64 + (b3 - 0x80) in
                (0xD800 + (cp - 0x10000) / 1024)
                  :: (0xDC00 + (cp - 0x10000) mod 1024)
                  :: utf8_units t3
              end
          end
      end
  end.

Definition js (s : string) : jsstring :=
  utf8_units (map (fun a => Z.of_N (N_of_ascii a)) (list_ascii_of_string s)).

(** Characters that have no spelling inside a literal here. *)
Definition nl : jsstring := [10].
Definition dquote : jsstring := [34].
Definition squote : jsstring := [39].
Definition backslash : jsstring := [92].

Definition unit_eqb (a b : code_unit) : bool := a =? b.

Fixpoint str_eqb (a b : jsstring) : bool :=
  match a, b with
  | [], [] => true
  | x :: a', y :: b' => unit_eqb x y && str_eqb a' b'
  | _, _ => false
  end.

(** A string is truthy when it is not empty. *)
Definition truthy (s : jsstring) : bool :=
  match s with [] => false | _ :: _ => true end.

(** [a || b] on an optional string field: [undefined] and [''] fall
    through to the default. *)
Definition or_default (field : option jsstring) (dflt : jsstring) : jsstring :=
  match field with
  | Some s => if truthy s then s else dflt
  | None => dflt
  end.

(** An optional string field that is there and truthy. *)
Definition supplied (field : option jsstring) : option jsstring :=
  match field with
  | Some s => if truthy s then Some s else None
  | None => None
  end.

(** ECMAScript WhiteSpace and LineTerminator code points, the set
    [String.prototype.trim] strips. *)
Definition isWhiteSpace (c : code_unit) : bool :=
  existsb (Z.eqb c)
    [0x09; 0x0A; 0x0B; 0x0C; 0x0D; 0x20; 0xA0; 0x1680; 0x2028; 0x2029;
     0x202F; 0x205F; 0x3000; 0xFEFF]
  || ((0x2000 <=? c) && (c <=? 0x200A)).

Fixpoint trimStart (s : jsstring) : jsstring :=
  match s with
  | [] => []
  | c :: t => if isWhiteSpace c then trimStart t else s
  end.

Definition trimEnd (s : jsstring) : jsstring := rev (trimStart (rev s)).

Definition trim (s : jsstring) : jsstring := trimEnd (trimStart s).

(** [s.startsWith(p)] *)
Fixpoint startsWith (p s : jsstring) : bool :=
  match p, s with
  | [], _ => true
  | _ :: _, [] => false
  | x :: p', y :: s' => unit_eqb x y && startsWith p' s'
  end.

(** [s.split(sep)] for a one-unit separator: always at least one piece. *)
Fixpoint split (sep : code_unit) (s : jsstring) : list jsstring :=
  match s with
  | [] => [[]]
  | c :: t =>
    if unit_eqb c sep then [] :: split sep t
    else
      match split sep t with
      | [] => [[c]]
      | piece :: pieces => (c :: piece) :: pieces
      end
  end.

(** [s.replace(c, '')] with a one-unit string pattern: the first
    occurrence only. *)
Fixpoint remove_first (c : code_unit) (s : jsstring) : jsstring :=
  match s with
  | [] => []
  | x :: t => if unit_eqb x c then t else x :: remove_first c t
  end.

(** [s.replace(/c/g, by)] for a one-unit pattern: every occurrence. *)
Fixpoint replace_all (c : code_unit) (by_ : jsstring) (s : jsstring) : jsstring :=
  match s with
  | [] => []
  | x :: t => (if unit_eqb x c then by_ else [x]) ++ replace_all c by_ t
  end.

(** [s.substring(i, j)] for [0 <= i <= j]; both ends clamp to the length. *)
Definition substring (i j : nat) (s : jsstring) : jsstring :=
  firstn (j - i) (skipn i s).

(** [s.padStart(n, fill)] with a one-unit fill string. *)
Definition padStart (n : nat) (fill : code_unit) (s : jsstring) : jsstring :=
  repeat fill (n - length s) ++ s.

(** [parts.join(sep)] *)
Fixpoint join (sep : jsstring) (parts : list jsstring) : jsstring :=
  match parts with
  | [] => []
  | [p] => p
  | p :: rest => p ++ sep ++ join sep rest
  end.

(** Upper-casing of an ASCII code unit. *)
Definition ascii_upper (c : code_unit) : code_unit :=
  if (97 <=? c) && (c <=? 122) then c - 32 else c.

Definition isHighSurrogate (c : code_unit) : bool := (0xD800 <=? c) && (c <=? 0xDBFF).
Definition isLowSurrogate (c : code_unit) : bool := (0xDC00 <=? c) && (c <=? 0xDFFF).

(** The code point a surrogate pair stands for. *)
Definition pair_code_point (hi lo : code_unit) : Z :=
  0x10000 + (hi - 0xD800) * 1024 + (lo - 0xDC00).

Section UpperCase.
(** The Unicode upper-case mapping of a code point outside ASCII,
    given as the code units it maps to. *)
Variable unicode_upper : Z -> jsstring.

(** [s.toUpperCase()]: code point by code point. *)
Fixpoint toUpperCase (s : jsstring) : jsstring :=
  match s with
  | [] => []
  | c :: t =>
    if c <? 0x80 then ascii_upper c :: toUpperCase t
    else
      match t with
      | d :: t' =>
        if isHighSurrogate c && isLowSurrogate d
        then unicode_upper (pair_code_point c d) ++ toUpperCase t'
        else unicode_upper c ++ toUpperCase t
      | [] => unicode_upper c
      end
  end.
End UpperCase.

(** Characters [encodeURIComponent] leaves as they are. *)
Definition isUnreserved (c : code_unit) : bool :=
  ((65 <=? c) && (c <=? 90)) || ((97 <=? c) && (c <=? 122))
  || ((48 <=? c) && (c <=? 57))
  || existsb (Z.eqb c) [45; 95; 46; 33; 126; 42; 39; 40; 41].

Definition utf8_bytes (cp : Z) : list Z :=
  if cp <? 0x80 then [cp]
  else if cp <? 0x800 then [0xC0 + cp / 64; 0x80 + cp mod 64]
  else if cp <? 0x10000
       then [0xE0 + cp / 4096; 0x80 + (cp / 64) mod 64; 0x80 + cp mod 64]
       else [0xF0 + cp / 262144; 0x80 + (cp / 4096) mod 64;
             0x80 + (cp / 64) mod 64; 0x80 + cp mod 64].

Definition percent (byte : Z) : jsstring :=
  let HEX := fun d => if d <? 10 then 48 + d else 55 + d in
  [37; HEX (byte / 16); HEX (byte mod 16)].

(** [encodeURIComponent(s)]; [None] is the URIError of a lone surrogate. *)
Fixpoint encodeURIComponent (s : jsstring) : option jsstring :=
  match s with
  | [] => Some []
  | c :: t =>
    if isUnreserved c then option_map (cons c) (encodeURIComponent t)
    else if isLowSurrogate c then None
    else if isHighSurrogate c then
      match t with
      | d :: t' =>
        if isLowSurrogate d
        then option_map (app (flat_map percent (utf8_bytes (pair_code_point c d))))
                        (encodeURIComponent t')
        else None
      | [] => None
      end
    else option_map (app (flat_map percent (utf8_bytes c))) (encodeURIComponent t)
  end.

(* ----------------------------------------------------------------- *)
(** *** Numbers *)

(** Numbers that hold a time in milliseconds: an integer, or one of the
    values that are not finite.  [Int z] is the double whose value is
    the integer [z]; every integer of magnitude up to 2^53 is one. *)
Inductive number :=
  | Int (z : Z)
  | NaN
  | Infinity (negative : bool).

(** [x < 0] *)
Definition lt0 (x : number) : bool :=
  match x with
  | Int z => z <? 0
  | NaN => false
  | Infinity negative => negative
  end.

(** **** Binary64 arithmetic *)

Module Float64.

Definition prec : Z := 53.
Definition emax : Z := 1024.

Definition float := spec_float.

(** The number an integer literal or an array index denotes. *)
Definition of_Z (z : Z) : float := binary_normalize prec emax z 0 false.
Definition of_nat (n : nat) : float := of_Z (Z.of_nat n).

Definition mul : float -> float -> float := SFmul prec emax.
Definition div : float -> float -> float := SFdiv prec emax.

Definition is_finite (x : float) : bool :=
  match x with
  | S754_zero _ | S754_finite _ _ _ => true
  | S754_infinity _ | S754_nan => false
  end.

(** [Math.floor(x)]: the largest integer not above [(-1)^s * m * 2^e]. *)
Definition floor (x : float) : number :=
  match x with
  | S754_zero _ => Int 0
  | S754_infinity s => Infinity s
  | S754_nan => NaN
  | S754_finite s m e =>
    let v := if s then Z.neg m else Z.pos m in
    Int (if 0 <=? e then v * 2 ^ e else v / 2 ^ (- e))
  end.

End Float64.

(** [Math.floor(x / d)] for a positive integer constant [d]: the
    quotient is rounded to binary64 before it is floored. *)
Definition floor_div (x : number) (d : Z) : number :=
  match x with
  | Int z => Float64.floor (Float64.div (Float64.of_Z z) (Float64.of_Z d))
  | NaN => NaN
  | Infinity negative => Infinity negative
  end.

(** [x % d]: the remainder takes the sign of the dividend; it is exact. *)
Definition rem (x : number) (d : Z) : number :=
  match x with
  | Int z => Int (Z.rem z d)
  | NaN | Infinity _ => NaN
  end.

(** Decimal digits of a natural number, most significant first. *)
Fixpoint digits (fuel : nat) (n : Z) (acc : jsstring) : jsstring :=
  match fuel with
  | O => acc
  | S fuel' =>
    let acc' := (48 + n mod 10) :: acc in
    if n <? 10 then acc' else digits fuel' (n / 10) acc'
  end.

Definition decimal (n : Z) : jsstring :=
  digits (S (Z.to_nat (Z.log2 n))) n [].

(** A counter in decimal. *)
Definition Z_toString (z : Z) : jsstring :=
  if z <? 0 then 45 :: decimal (- z) else decimal z.

(** Whether two integers denote the same double. *)
Definition same_double (a b : Z) : bool :=
  SFeqb (Float64.of_Z a) (Float64.of_Z b).

(** The integer with the fewest significant digits that denotes the
    double of [z], an integer of [n] decimal digits: among the two
    multiples of [10^(n-k)] around [z] the nearer one, the one with the
    even last digit when they are as near. *)
Fixpoint shortest (fuel : nat) (k n : Z) (z : Z) : Z :=
  match fuel with
  | O => z
  | S fuel' =>
    if n <=? k then z
    else
      let p := 10 ^ (n - k) in
      let lo := z / p * p in
      let hi := lo + p in
      match same_double lo z, same_double hi z with
      | true, true =>
        if z - lo <? hi - z then lo
        else if hi - z <? z - lo then hi
        else if Z.even (z / p) then lo else hi
      | true, false => lo
      | false, true => hi
      | false, false => shortest fuel' (k + 1) n z
      end
  end.

Fixpoint strip_zeros (s : jsstring) : jsstring :=
  match s with
  | [] => []
  | c :: t =>
    match strip_zeros t with
    | [] => if c =? 48 then [] else [c]
    | t' => c :: t'
    end
  end.

(** Exponent notation, as in [1.8446744073709552e+21]. *)
Definition exponential (v : Z) : jsstring :=
  let ds := decimal v in
  let e := decimal (Z.of_nat (length ds) - 1) in
  match strip_zeros ds with
  | [] => ds
  | [d] => d :: js "e+" ++ e
  | d :: rest => d :: js "." ++ rest ++ js "e+" ++ e
  end.

(** The text of a non-negative integer-valued number: every digit up to
    2^53, where all integers are doubles; above, the shortest digits
    that still denote the number, zero-filled, and in exponent notation
    from 1e21. *)
Definition integer_toString (z : Z) : jsstring :=
  if z <? 2 ^ 53 then decimal z
  else
    let v := shortest 17 1 (Z.of_nat (length (decimal z))) z in
    if v <? 10 ^ 21 then decimal v else exponential v.

(** [x.toString()] and the conversion a template literal applies. *)
Definition toString (x : number) : jsstring :=
  match x with
  | Int z => if z <? 0 then 45 :: integer_toString (- z) else integer_toString z
  | NaN => js "NaN"
  | Infinity false => js "Infinity"
  | Infinity true => js "-Infinity"
  end.

(** The value a string of decimal digits denotes. *)
Definition digits_value (s : jsstring) : Z :=
  fold_left (fun acc c => 10 * acc + (c - 48)) s 0.

Definition isDigit (c : code_unit) : bool := (48 <=? c) && (c <=? 57).

End JS.

Import JS.

(* ================================================================= *)
(** ** The subtitle serializer *)

Module Srt.

Record utterance := {
  start_time : number;
  end_time : number;
  text : jsstring
}.

Definition zero : code_unit := 48.

Definition msToSrtTime (ms : number) : jsstring :=
  let ms := if lt0 ms then Int 0 else ms in
  let hours := floor_div ms 3600000 in
  let minutes := floor_div (rem ms 3600000) 60000 in
  let seconds := floor_div (rem ms 60000) 1000 in
  let milliseconds := rem ms 1000 in
  padStart 2 zero (toString hours) ++ js ":"
    ++ padStart 2 zero (toString minutes) ++ js ":"
    ++ padStart 2 zero (toString seconds) ++ js ","
    ++ padStart 3 zero (toString milliseconds).

(** One turn of the loop of [generateSRT]: the state is the text so far
    and the next sequence number. *)
Definition srt_step (st : jsstring * Z) (u : utterance) : jsstring * Z :=
  let '(srtContent, index) := st in
  let startTime := msToSrtTime (start_time u) in
  let endTime := msToSrtTime (end_time u) in
  let text := trim (text u) in
  if truthy text then
    (srtContent
       ++ (Z_toString index ++ nl)
       ++ (startTime ++ js " --> " ++ endTime ++ nl)
       ++ (text ++ nl ++ nl),
     index + 1)
  else (srtContent, index).

Definition generateSRT (utterances : list utterance) : jsstring :=
  fst (fold_left srt_step utterances ([], 1)).

(** The block the subtitle format prescribes for cue number [k]. *)
Definition block (k : Z) (u : utterance) : jsstring :=
  Z_toString k ++ nl
    ++ msToSrtTime (start_time u) ++ js " --> " ++ msToSrtTime (end_time u) ++ nl
    ++ trim (text u) ++ nl ++ nl.

(** The utterances that survive: those whose trimmed text is not empty. *)
Definition emitted (utterances : list utterance) : list utterance :=
  filter (fun u => truthy (trim (text u))) utterances.

(** Blocks numbered upwards from [k]. *)
Fixpoint numbered_blocks (k : Z) (cues : list utterance) : jsstring :=
  match cues with
  | [] => []
  | u :: rest => block k u ++ numbered_blocks (k + 1) rest
  end.

End Srt.


(* ================================================================= *)
(** ** [node:path], POSIX flavour *)

Module Path.

Definition slash : code_unit := 47.
Definition dot : code_unit := 46.

Definition segments (p : jsstring) : list jsstring := split slash p.

(** Resolution of [.] and [..] segments; [acc] holds the segments kept
    so far, last first. *)
Fixpoint resolve (allowAboveRoot : bool) (segs acc : list jsstring) : list jsstring :=
  match segs with
  | [] => rev acc
  | s :: rest =>
    if str_eqb s [] || str_eqb s [dot] then resolve allowAboveRoot rest acc
    else if str_eqb s [dot; dot] then
      match acc with
      | prev :: acc' =>
        if str_eqb prev [dot; dot] then resolve allowAboveRoot rest (s :: acc)
        else resolve allowAboveRoot rest acc'
      | [] => resolve allowAboveRoot rest (if allowAboveRoot then [s] else [])
      end
    else resolve allowAboveRoot rest (s :: acc)
  end.

Definition endsWithSlash (p : jsstring) : bool :=
  match rev p with
  | c :: _ => unit_eqb c slash
  | [] => false
  end.

Definition normalize (p : jsstring) : jsstring :=
  match p with
  | [] => [dot]
  | c :: _ =>
    let isAbsolute := unit_eqb c slash in
    let trailingSeparator := endsWithSlash p in
    let r := JS.join [slash] (resolve (negb isAbsolute) (segments p) []) in
    match r with
    | [] => if isAbsolute then [slash]
            else if trailingSeparator then [dot; slash] else [dot]
    | _ :: _ =>
      (if isAbsolute then [slash] else [])
        ++ r ++ (if trailingSeparator then [slash] else [])
    end
  end.

(** [path.join(...parts)] *)
Definition join (parts : list jsstring) : jsstring :=
  match JS.join [slash] (filter truthy parts) with
  | [] => [dot]
  | joined => normalize joined
  end.

(** The last component of a path, trailing separators set aside. *)
Definition component (p : jsstring) : jsstring :=
  last (filter truthy (segments p)) [].

Definition endsWith (suffix s : jsstring) : bool :=
  startsWith (rev suffix) (rev s).

(** Position of the last [c] in [s]. *)
Fixpoint lastIndexOf (c : code_unit) (s : jsstring) : option nat :=
  match s with
  | [] => None
  | x :: t =>
    match lastIndexOf c t with
    | Some k => Some (S k)
    | None => if unit_eqb x c then Some O else None
    end
  end.

(** [path.extname(p)]: from the last dot of the last component, unless
    that dot opens the component or the component is [..]. *)
Definition extname (p : jsstring) : jsstring :=
  let b := component p in
  match lastIndexOf dot b with
  | None => []
  | Some k =>
    if (k =? 0)%nat || str_eqb b [dot; dot] then [] else skipn k b
  end.

(** [path.basename(p, suffix)]: the last component, without [suffix]
    when it ends with it and is more than it.  The routes pass the
    extension of the same path as the suffix. *)
Definition basename (p suffix : jsstring) : jsstring :=
  let b := component p in
  if truthy suffix && (length suffix <=? length p)%nat then
    if str_eqb suffix p then []
    else if endsWith suffix b && negb (str_eqb suffix b)
         then firstn (length b - length suffix) b
         else b
  else b.

End Path.

(* ================================================================= *)
(** ** Routes: what a handler answers and what it does to the world *)

Module Route.

Inductive effect :=
  | Exec (command : jsstring)
  | WriteFile (path content : jsstring).

Inductive response (A : Type) :=
  | Ok (payload : A)
  | Fail (status : Z) (error : jsstring).

Arguments Ok {A} payload.
Arguments Fail {A} status error.

(** Unescaped double quotes of a command text: a backslash protects the
    unit after it. *)
Fixpoint unescaped_dquotes (s : jsstring) : nat :=
  match s with
  | [] => O
  | c :: t =>
    if unit_eqb c 92 then
      match t with
      | [] => O
      | _ :: t' => unescaped_dquotes t'
      end
    else if unit_eqb c 34 then S (unescaped_dquotes t)
    else unescaped_dquotes t
  end.

End Route.

(* ================================================================= *)
(** ** The request signer *)

Module Signer.

Definition hexdigit (d : Z) : code_unit := if d <? 10 then 48 + d else 87 + d.

(** [buffer.toString('hex')] *)
Definition toHex (bytes : list Z) : jsstring :=
  flat_map (fun b => [hexdigit (b / 16); hexdigit (b mod 16)]) bytes.

(** [randomBytes(n)] drawn from a source of bytes. *)
Definition randomBytes (source : nat -> Z) (n : nat) : list Z :=
  map (fun i => source i mod 256) (seq 0 n).

Section Sign.
(** [createHmac('sha256', key).update(message).digest('hex')] *)
Variable hmac_sha256_hex : jsstring -> jsstring -> jsstring.
(** [Date.now()] and the random source at the time of the call. *)
Variable now : Z.
Variable source : nat -> Z.

Definition generateAuthHeaders (method apiPath appId appSecret : jsstring)
  : list (jsstring * jsstring) :=
  let timestamp := now / 1000 in
  let nonce := toHex (randomBytes source 16) in
  let signatureString :=
    method ++ nl ++ apiPath ++ nl ++ Z_toString timestamp ++ nl
      ++ nonce ++ nl ++ appId in
  let signature := hmac_sha256_hex appSecret signatureString in
  [ (js "X-App-Id", appId);
    (js "X-Timestamp", Z_toString timestamp);
    (js "X-Nonce", nonce);
    (js "Authorization", js "HMAC-SHA256 " ++ signature) ].
End Sign.

Definition isHexDigit (c : code_unit) : bool :=
  ((48 <=? c) && (c <=? 57)) || ((97 <=? c) && (c <=? 102)).

End Signer.

(* ================================================================= *)
(** ** Cover generation: the command text *)

Module Cover.

Definition orientationDesc (aspectRatio : jsstring) : jsstring :=
  if str_eqb aspectRatio (js "9:16")
  then js "vertical 9:16 portrait orientation (1080x1920 pixels)"
  else js "horizontal 16:9 landscape orientation (1920x1080 pixels)".

Definition prompt (title : jsstring) (customPrompt : option jsstring)
                  (aspectRatio : jsstring) : jsstring :=
  or_default customPrompt
    (js "Cute kawaii cartoon illustration, " ++ orientationDesc aspectRatio
       ++ js ". A cheerful scene depicting: " ++ title
       ++ js ". Adorable chibi-style characters with big sparkling eyes. Flat design style with soft pastel colors, clean lines, and a cozy warm atmosphere. No text in the image.").

(** The prompt goes in with its double quotes escaped. *)
Definition command (prompt output : jsstring) : jsstring :=
  js "python3 ~/.config/pie/skills/nano_banana/scripts/image_gen.py generate --prompt "
    ++ dquote ++ replace_all 34 (backslash ++ dquote) prompt ++ dquote
    ++ js " --output " ++ dquote ++ output ++ dquote.

End Cover.

(* ================================================================= *)
(** ** Video generation *)

Module Video.

Import Route.

Record subtitle_style := {
  fontSize : option jsstring;
  fontColor : option jsstring;
  outlineColor : option jsstring;
  outlineWidth : option jsstring
}.

Record request := {
  audioPath : jsstring;
  imagePath : jsstring;
  srtPath : option jsstring;
  withSubtitles : bool;
  originalFilename : option jsstring;
  aspectRatio : option jsstring;
  subtitleStyle : subtitle_style
}.

Record produced := {
  videoPath : jsstring;
  downloadFilename : jsstring;
  fullPath : jsstring
}.

(** Frame size and vertical margin, each read off the aspect ratio. *)
Definition videoSize (aspectRatio : jsstring) : jsstring :=
  if str_eqb aspectRatio (js "9:16") then js "1080:1920" else js "1920:1080".

Definition marginV (aspectRatio : jsstring) : Z :=
  if str_eqb aspectRatio (js "9:16") then 60 else 40.

(** The destructuring default: a missing field reads ['9:16']. *)
Definition aspect (r : request) : jsstring :=
  match aspectRatio r with
  | Some a => a
  | None => js "9:16"
  end.

Definition baseName (originalFilename : option jsstring) (now : Z) : jsstring :=
  match originalFilename with
  | Some f =>
    if truthy f then Path.basename f (Path.extname f)
    else js "video-" ++ Z_toString now
  | None => js "video-" ++ Z_toString now
  end.

Definition outputName (originalFilename : option jsstring) (now : Z) : jsstring :=
  js "pimsleur 日常英语对话-" ++ baseName originalFilename now ++ js ".mp4".

Section Handler.
(** The Unicode upper-case mapping outside ASCII, [__dirname], and
    [Date.now()]. *)
Variable unicode_upper : Z -> jsstring.
Variable dirname : jsstring.
Variable now : Z.

Definition cssToAssColor (cssColor : jsstring) : jsstring :=
  if startsWith (js "&H") cssColor then cssColor
  else
    let hex := remove_first 35 cssColor in
    let r := substring 0 2 hex in
    let g := substring 2 4 hex in
    let b := substring 4 6 hex in
    toUpperCase unicode_upper (js "&H00" ++ b ++ g ++ r).

Definition styleStr (style : subtitle_style) (marginV : Z) : jsstring :=
  let fontSize := or_default (fontSize style) (js "24") in
  let fontColor := cssToAssColor (or_default (fontColor style) (js "#FFFFFF")) in
  let outlineColor := cssToAssColor (or_default (outlineColor style) (js "#000000")) in
  let outlineWidth := or_default (outlineWidth style) (js "2") in
  js "FontName=PingFang SC,FontSize=" ++ fontSize
    ++ js ",PrimaryColour=" ++ fontColor
    ++ js ",OutlineColour=" ++ outlineColor
    ++ js ",Outline=" ++ outlineWidth
    ++ js ",Shadow=0,Alignment=2,MarginV=" ++ Z_toString marginV.

Definition encoding : jsstring :=
  js " -c:v libx264 -tune stillimage -c:a aac -b:a 192k -pix_fmt yuv420p -shortest -y ".

Definition command_with_subtitles
    (imageFullPath audioFullPath videoSize srtFullPath styleStr outputPath : jsstring)
  : jsstring :=
  js "ffmpeg -loop 1 -i " ++ dquote ++ imageFullPath ++ dquote
    ++ js " -i " ++ dquote ++ audioFullPath ++ dquote
    ++ js " -vf " ++ dquote
    ++ js "scale=" ++ videoSize
    ++ js ":force_original_aspect_ratio=decrease,pad=" ++ videoSize
    ++ js ":(ow-iw)/2:(oh-ih)/2,subtitles='" ++ srtFullPath
    ++ js "':force_style='" ++ styleStr ++ js "'" ++ dquote
    ++ encoding ++ dquote ++ outputPath ++ dquote.

Definition command_without_subtitles
    (imageFullPath audioFullPath videoSize outputPath : jsstring) : jsstring :=
  js "ffmpeg -loop 1 -i " ++ dquote ++ imageFullPath ++ dquote
    ++ js " -i " ++ dquote ++ audioFullPath ++ dquote
    ++ js " -vf " ++ dquote
    ++ js "scale=" ++ videoSize
    ++ js ":force_original_aspect_ratio=decrease,pad=" ++ videoSize
    ++ js ":(ow-iw)/2:(oh-ih)/2" ++ dquote
    ++ encoding ++ dquote ++ outputPath ++ dquote.

Definition outputPath (r : request) : jsstring :=
  Path.join [dirname; js "outputs"; js "videos";
             outputName (originalFilename r) now].

(** The command text, over the frame size and margin it is built with. *)
Definition command_for (r : request) (videoSize : jsstring) (marginV : Z) : jsstring :=
  let audioFullPath := Path.join [dirname; audioPath r] in
  let imageFullPath := Path.join [dirname; imagePath r] in
  match (if withSubtitles r then supplied (srtPath r) else None) with
  | Some srtPath =>
    let srtFullPath := Path.join [dirname; srtPath] in
    command_with_subtitles imageFullPath audioFullPath videoSize srtFullPath
      (styleStr (subtitleStyle r) marginV) (outputPath r)
  | None =>
    command_without_subtitles imageFullPath audioFullPath videoSize (outputPath r)
  end.

Definition command (r : request) : jsstring :=
  let videoSize := videoSize (aspect r) in
  let marginV := marginV (aspect r) in
  command_for r videoSize marginV.

(** The handler: [execSync] either returns or throws with a message. *)
Definition generate_video (execSync : jsstring -> option jsstring) (r : request)
  : response produced * list effect :=
  let outputName := outputName (originalFilename r) now in
  let cmd := command r in
  match execSync cmd with
  | Some message => (Fail 500 message, [Exec cmd])
  | None =>
    match encodeURIComponent outputName with
    | None => (Fail 500 (js "URI malformed"), [Exec cmd])
    | Some encoded =>
      (Ok {| videoPath := js "/outputs/videos/" ++ encoded;
             downloadFilename := outputName;
             fullPath := outputPath r |},
       [Exec cmd])
    end
  end.
End Handler.

End Video.

(* ================================================================= *)
(** ** Subtitle alignment: the uniform fallback *)

Module Align.

Import Route Float64 Srt.

Record environment := {
  (** [fs.existsSync] *)
  existsSync : jsstring -> bool;
  (** Running the duration probe: it throws with a message, or prints a
      text that [parseFloat] reads as this number of seconds. *)
  probe : jsstring -> jsstring + float;
  (** [fs.writeFileSync(path, content)]: it returns, or throws with a
      message. *)
  writeFileSync : jsstring -> jsstring -> option jsstring
}.

Record aligned := {
  srtPath : jsstring;
  duration : float;
  lineCount : nat
}.

(** [lines.map((text, index) => ...)] *)
Fixpoint map_index {A B : Type} (f : A -> nat -> B) (index : nat) (l : list A) : list B :=
  match l with
  | [] => []
  | x :: t => f x index :: map_index f (S index) t
  end.

Definition avgDuration (durationMs : float) (lines : list jsstring) : float :=
  div durationMs (of_nat (length lines)).

Definition cue (avg : float) (text : jsstring) (index : nat) : utterance :=
  {| start_time := floor (mul (of_nat index) avg);
     end_time := floor (mul (of_nat (index + 1)) avg);
     text := trim text |}.

Definition uniform_utterances (lines : list jsstring) (durationMs : float)
  : list utterance :=
  map_index (cue (avgDuration durationMs lines)) 0 lines.

(** The slices as the specification words them: line [i] of [n] spans
    from [floor (i * D / n)] to [floor ((i + 1) * D / n)]. *)
Definition spec_slices (n : nat) (D : Z) : list (number * number) :=
  map (fun i => (Int (Z.of_nat i * D / Z.of_nat n),
                 Int ((Z.of_nat i + 1) * D / Z.of_nat n)))
      (seq 0 n).

Definition nonEmptyLines (subtitleText : jsstring) : list jsstring :=
  filter (fun line => truthy (trim line)) (split 10 subtitleText).

Definition probeCommand (fullPath : jsstring) : jsstring :=
  js "ffprobe -v error -show_entries format=duration -of default=noprint_wrappers=1:nokey=1 "
    ++ dquote ++ fullPath ++ dquote.

Definition align_subtitle (env : environment) (dirname audioPath subtitleText : jsstring)
  : response aligned * list effect :=
  let fullPath := Path.join [dirname; audioPath] in
  if negb (existsSync env fullPath) then
    (Fail 400 (js "音频文件不存在"), [])
  else
    let lines := nonEmptyLines subtitleText in
    if (length lines =? 0)%nat then
      (Fail 400 (js "字幕文本为空"), [])
    else
      match probe env (probeCommand fullPath) with
      | inl message => (Fail 500 message, [Exec (probeCommand fullPath)])
      | inr durationSec =>
        let durationMs := mul durationSec (of_Z 1000) in
        let utterances := uniform_utterances lines durationMs in
        let srtContent := generateSRT utterances in
        let srtFilename :=
          Path.basename audioPath (Path.extname audioPath) ++ js "-manual.srt" in
        let srtPath := Path.join [dirname; js "outputs"; srtFilename] in
        match writeFileSync env srtPath srtContent with
        | Some message =>
          (Fail 500 message,
           [Exec (probeCommand fullPath); WriteFile srtPath srtContent])
        | None =>
          (Ok {| srtPath := js "/outputs/" ++ srtFilename;
                 duration := durationMs;
                 lineCount := length lines |},
           [Exec (probeCommand fullPath); WriteFile srtPath srtContent])
        end
      end.

End Align.

(* ================================================================= *)
(** ** Credentials *)

Module Credentials.

(** The own properties of the object [env], the latest assignment
    first. *)
Definition object := list (jsstring * jsstring).

(** [o[k] = v] for a string [v]: on a plain object the key [__proto__]
    is the prototype accessor, which ignores a string. *)
Definition assign (k v : jsstring) (o : object) : object :=
  if str_eqb k (js "__proto__") then o else (k, v) :: o.

(** [o[k]] for an own property. *)
Fixpoint get (k : jsstring) (o : object) : option jsstring :=
  match o with
  | [] => None
  | (k', v) :: rest => if str_eqb k k' then Some v else get k rest
  end.

(** The body of the [forEach]: [const [key, value] = line.split('=')]. *)
Definition parse_line (env : object) (line : jsstring) : object :=
  match split 61 line with
  | key :: value :: _ =>
    if truthy key && truthy value then assign (trim key) (trim value) env else env
  | _ => env
  end.

Definition parse (envContent : jsstring) : object :=
  fold_left parse_line (split 10 envContent) [].

Record files := {
  (** [fs.existsSync] *)
  existsSync : jsstring -> bool;
  (** [fs.readFileSync(path, 'utf-8')]: it throws with a message, or
      returns the text. *)
  readFileSync : jsstring -> jsstring + jsstring
}.

(** [loadCredentials()]: the left side is the message of what it
    throws. *)
Definition loadCredentials (fs : files) (dirname : jsstring) : jsstring + object :=
  let envPath := Path.join [dirname; js ".piebox"; js "env"] in
  let envPath :=
    if negb (existsSync fs envPath)
    then Path.join [dirname; js ".."; js ".piebox"; js "env"]
    else envPath in
  if negb (existsSync fs envPath) then
    inl (js "凭据文件不存在，请先运行 create-app")
  else
    match readFileSync fs envPath with
    | inl message => inl message
    | inr envContent => inr (parse envContent)
    end.

End Credentials.

(* ================================================================= *)
(** ** Audio upload *)

Module Upload.

Import Route.

(** What the upload middleware hands over. *)
Record file := {
  filename : jsstring;
  originalname : jsstring;
  path : jsstring
}.

(** The stored name the storage configuration gives an upload. *)
Definition uniqueName (now : Z) (originalname : jsstring) : jsstring :=
  Z_toString now ++ js "-" ++ originalname.

Fixpoint dropDigits (s : jsstring) : jsstring :=
  match s with
  | [] => []
  | c :: t => if isDigit c then dropDigits t else s
  end.

Definition isDashOrUnderscore (c : code_unit) : bool := (c =? 45) || (c =? 95).

(** [s.replace(/^\d+[-_]?/, '')]: leading digits, one at least, and one
    dash or underscore after them. *)
Definition stripNumericPrefix (s : jsstring) : jsstring :=
  match s with
  | [] => []
  | c :: t =>
    if isDigit c then
      match dropDigits t with
      | [] => []
      | d :: t' => if isDashOrUnderscore d then t' else d :: t'
      end
    else s
  end.

(** [s.replace(/[-_]/g, ' ')] *)
Definition spaceOut (s : jsstring) : jsstring :=
  map (fun c => if isDashOrUnderscore c then 32 else c) s.

Definition title (originalname : jsstring) : jsstring :=
  let title := Path.basename originalname (Path.extname originalname) in
  trim (spaceOut (stripNumericPrefix title)).

Record stored := {
  s_filename : jsstring;
  s_originalname : jsstring;
  s_path : jsstring;
  s_fullPath : jsstring;
  s_title : jsstring
}.

Definition upload (f : option file) : response stored :=
  match f with
  | None => Fail 400 (js "没有上传文件")
  | Some f =>
    Ok {| s_filename := filename f;
          s_originalname := originalname f;
          s_path := js "/uploads/" ++ filename f;
          s_fullPath := path f;
          s_title := title (originalname f) |}
  end.

End Upload.

(* ================================================================= *)
(** ** Cover generation: the route *)

Module CoverRoute.

Import Route.

Record environment := {
  (** [execSync(command)]: it returns, or throws with a message. *)
  execSync : jsstring -> option jsstring;
  (** [fs.readdirSync(dir)]: it throws with a message, or lists the
      names. *)
  readdirSync : jsstring -> jsstring + list jsstring
}.

Record generated := {
  imagePath : jsstring;
  fullPath : jsstring
}.

(** What a template literal makes of a body field. *)
Definition interpolate (field : option jsstring) : jsstring :=
  match field with
  | Some s => s
  | None => js "undefined"
  end.

Definition generate_cover (env : environment) (dirname : jsstring) (now : Z)
    (title customPrompt aspectRatio : option jsstring)
  : response generated * list effect :=
  let aspectRatio := match aspectRatio with Some a => a | None => js "9:16" end in
  let prompt := Cover.prompt (interpolate title) customPrompt aspectRatio in
  let outputName := js "cover-" ++ Z_toString now in
  let outputDir := Path.join [dirname; js "outputs"; js "images"] in
  let command := Cover.command prompt (Path.join [outputDir; outputName]) in
  match execSync env command with
  | Some message => (Fail 500 message, [Exec command])
  | None =>
    match readdirSync env outputDir with
    | inl message => (Fail 500 message, [Exec command])
    | inr files =>
      match find (startsWith outputName) files with
      | None => (Fail 500 (js "图片生成失败"), [Exec command])
      | Some generatedFile =>
        (Ok {| imagePath := js "/outputs/images/" ++ generatedFile;
               fullPath := Path.join [outputDir; generatedFile] |},
         [Exec command])
      end
    end
  end.

End CoverRoute.

(* ================================================================= *)
(** ** Speech recognition: the route *)

Module Asr.

Import Route.

Definition b64char (v : Z) : code_unit :=
  if v <? 26 then 65 + v
  else if v <? 52 then 97 + (v - 26)
  else if v <? 62 then 48 + (v - 52)
  else if v =? 62 then 43 else 47.

(** [buffer.toString('base64')] *)
Fixpoint base64 (bytes : list Z) : jsstring :=
  match bytes with
  | [] => []
  | a :: b :: c :: rest =>
    [b64char (a / 4); b64char (a mod 4 * 16 + b / 16);
     b64char (b mod 16 * 4 + c / 64); b64char (c mod 64)]
      ++ base64 rest
  | [a; b] =>
    [b64char (a / 4); b64char (a mod 4 * 16 + b / 16); b64char (b mod 16 * 4); 61]
  | [a] => [b64char (a / 4); b64char (a mod 4 * 16); 61; 61]
  end.

Record fetch_request := {
  url : jsstring;
  method : jsstring;
  headers : list (jsstring * jsstring);
  body : jsstring
}.

(** [result.data] of a well-formed answer. *)
Record recognition := {
  transcript : jsstring;
  duration : number;
  utterances : list Srt.utterance
}.

Record fetch_response := {
  ok : bool;
  status : Z;
  (** [await response.text()] *)
  responseText : jsstring;
  (** [await response.json()] down to [result.data.utterances]: a step
      throws with a message, or the data is there. *)
  json : jsstring + recognition
}.

Record recognized := {
  r_text : jsstring;
  r_duration : number;
  r_utterances : list Srt.utterance;
  r_srtPath : jsstring
}.

Inductive action :=
  | Fetch (request : fetch_request)
  | Local (e : effect).

Record environment := {
  fs : Credentials.files;
  (** [fs.readFileSync(path)]: it throws with a message, or returns the
      bytes. *)
  readBytes : jsstring -> jsstring + list Z;
  (** [fetch(url, init)]: it rejects with a message, or answers. *)
  fetch : fetch_request -> jsstring + fetch_response;
  (** [fs.writeFileSync] *)
  writeFileSync : jsstring -> jsstring -> option jsstring;
  (** [createHmac('sha256', key).update(message).digest('hex')] for a
      string key, and the message of what it throws without one. *)
  hmac_sha256_hex : jsstring -> jsstring -> jsstring;
  invalid_key : jsstring;
  (** [Date.now()] and the random source. *)
  now : Z;
  source : nat -> Z
}.

Definition apiPath : jsstring := js "/asr/volcengine_quick".

(** [JSON.stringify({ audio_data, enable_punc: true, enable_itn: true })];
    base64 text needs no escape. *)
Definition requestBody (audioData : jsstring) : jsstring :=
  js "{" ++ dquote ++ js "audio_data" ++ dquote ++ js ":" ++ dquote ++ audioData ++ dquote
    ++ js "," ++ dquote ++ js "enable_punc" ++ dquote ++ js ":true,"
    ++ dquote ++ js "enable_itn" ++ dquote ++ js ":true}".

Definition asr (env : environment) (dirname audioPath : jsstring)
  : response recognized * list action :=
  match Credentials.loadCredentials (fs env) dirname with
  | inl message => (Fail 500 message, [])
  | inr credentials =>
    let fullPath := Path.join [dirname; audioPath] in
    if negb (Credentials.existsSync (fs env) fullPath) then
      (Fail 400 (js "音频文件不存在"), [])
    else
      match readBytes env fullPath with
      | inl message => (Fail 500 message, [])
      | inr audioBuffer =>
        let audioData := base64 audioBuffer in
        let appId := Credentials.get (js "PIE_APP_ID") credentials in
        match Credentials.get (js "PIE_APP_SECRET") credentials with
        | None => (Fail 500 (invalid_key env), [])
        | Some appSecret =>
          let headers :=
            Signer.generateAuthHeaders (hmac_sha256_hex env) (now env) (source env)
              (js "POST") apiPath (CoverRoute.interpolate appId) appSecret in
          let request :=
            {| url := CoverRoute.interpolate
                        (Credentials.get (js "PIE_GATEWAY_PATH") credentials)
                      ++ apiPath;
               method := js "POST";
               headers := (js "Content-Type", js "application/json") :: headers;
               body := requestBody audioData |} in
          match fetch env request with
          | inl message => (Fail 500 message, [Fetch request])
          | inr response =>
            if negb (ok response) then
              (Fail 500 (js "ASR 请求失败: " ++ Z_toString (status response)
                           ++ js " - " ++ responseText response),
               [Fetch request])
            else
              match json response with
              | inl message => (Fail 500 message, [Fetch request])
              | inr data =>
                let srtContent := Srt.generateSRT (utterances data) in
                let srtFilename :=
                  Path.basename audioPath (Path.extname audioPath) ++ js ".srt" in
                let srtPath := Path.join [dirname; js "outputs"; srtFilename] in
                match writeFileSync env srtPath srtContent with
                | Some message =>
                  (Fail 500 message,
                   [Fetch request; Local (WriteFile srtPath srtContent)])
                | None =>
                  (Ok {| r_text := transcript data;
                         r_duration := duration data;
                         r_utterances := utterances data;
                         r_srtPath := js "/outputs/" ++ srtFilename |},
                   [Fetch request; Local (WriteFile srtPath srtContent)])
                end
              end
          end
        end
      end
  end.

End Asr.

(* ================================================================= *)
(** ** Predicates the properties are stated with *)

(** No unit of [s] is a double quote or a backslash. *)
Definition quote_free (s : jsstring) : Prop :=
  Forall (fun c => c <> 34 /\ c <> 92) s.

(** The units [encodeURIComponent] can produce: the unreserved ones and
    the percent sign. *)
Definition isUriSafe (c : code_unit) : bool := isUnreserved c || (c =? 37).

(** Every unit of [s] is a 16-bit code unit. *)
Definition well_formed (s : jsstring) : Prop := Forall (fun c => 0 <= c < 65536) s.

(** An optional field that is absent or empty. *)
Definition unset (field : option jsstring) : Prop := supplied field = None.

(** An optional field, when it is there, is free of quotes. *)
Definition field_quote_free (field : option jsstring) : Prop :=
  match field with
  | Some s => quote_free s
  | None => True
  end.

(** A video request none of whose strings holds a double quote or a
    backslash. *)
Definition request_quote_free (r : Video.request) : Prop :=
  quote_free (Video.audioPath r)
  /\ quote_free (Video.imagePath r)
  /\ field_quote_free (Video.srtPath r)
  /\ field_quote_free (Video.originalFilename r)
  /\ field_quote_free (Video.fontSize (Video.subtitleStyle r))
  /\ field_quote_free (Video.fontColor (Video.subtitleStyle r))
  /\ field_quote_free (Video.outlineColor (Video.subtitleStyle r))
  /\ field_quote_free (Video.outlineWidth (Video.subtitleStyle r)).

(** No unit of [s] is a backslash. *)
Definition backslash_free (s : jsstring) : Prop := Forall (fun c => c <> 92) s.

(** The text the signer hashes. *)
Definition signatureString (method apiPath : jsstring) (timestamp : Z)
    (nonce appId : jsstring) : jsstring :=
  method ++ nl ++ apiPath ++ nl ++ Z_toString timestamp ++ nl ++ nonce ++ nl ++ appId.

(** A small world to run the recognition route in: credentials in the
    server directory, one uploaded file of two bytes, and a backend
    that answers every request the same way. *)
Definition sample_world (response : Asr.fetch_response) : Asr.environment :=
  {| Asr.fs :=
       {| Credentials.existsSync := fun p =>
            str_eqb p (js "/srv/app/.piebox/env")
            || str_eqb p (js "/srv/app/uploads/17-talk.mp3");
          Credentials.readFileSync := fun _ =>
            inr (js "PIE_APP_ID=app-42" ++ nl ++ js "PIE_APP_SECRET=s3cret" ++ nl
                   ++ js "PIE_GATEWAY_PATH=https://gw.example") |};
     Asr.readBytes := fun _ => inr [72; 105];
     Asr.fetch := fun _ => inr response;
     Asr.writeFileSync := fun _ _ => None;
     Asr.hmac_sha256_hex := fun key message => key ++ message;
     Asr.invalid_key := js "The key argument must be of type string";
     Asr.now := 1700000000123;
     Asr.source := fun i => Z.of_nat i |}.

Definition sample_answer : Asr.fetch_response :=
  {| Asr.ok := true;
     Asr.status := 200;
     Asr.responseText := [];
     Asr.json :=
       inr {| Asr.transcript := js "Hi there";
              Asr.duration := Int 1200;
              Asr.utterances :=
                [ {| Srt.start_time := Int 0; Srt.end_time := Int 1200;
                     Srt.text := js " Hi there " |} ] |} |}.

Definition sample_refusal : Asr.fetch_response :=
  {| Asr.ok := false;
     Asr.status := 403;
     Asr.responseText := js "bad signature";
     Asr.json := inl (js "Unexpected token") |}.

(** The request an action list opens with. *)
Definition first_request (actions : list Asr.action) : option Asr.fetch_request :=
  match actions with
  | Asr.Fetch request :: _ => Some request
  | _ => None
  end.

(** The boolean reading of [quote_free]. *)
Definition quote_freeb (s : jsstring) : bool :=
  forallb (fun c => negb (c =? 34) && negb (c =? 92)) s.

(** A string that does not open with white space. *)
Definition starts_clean (s : jsstring) : Prop :=
  match s with
  | [] => True
  | c :: _ => isWhiteSpace c = false
  end.

(* ================================================================= *)
(** * Properties *)

Import Srt.

Ltac split_all := repeat match goal with |- _ /\ _ => split end.

(* ----------------------------------------------------------------- *)
(** ** Strings and decimal rendering *)

Lemma str_eqb_eq (a b : jsstring) : str_eqb a b = true <-> a = b.
Proof.
  revert b. induction a as [|x a IH]; intros [|y b]; simpl; try easy.
  unfold unit_eqb. rewrite andb_true_iff, Z.eqb_eq, IH.
  split; [intros [-> ->]; reflexivity | intros H; inversion H; auto].
Qed.

Lemma str_eqb_refl (a : jsstring) : str_eqb a a = true.
Proof. apply str_eqb_eq. reflexivity. Qed.

Lemma truthy_false (s : jsstring) : truthy s = false <-> s = [].
Proof. destruct s; simpl; split; congruence. Qed.

Lemma padStart_length (n : nat) (c : code_unit) (s : jsstring) :
  length (padStart n c s) = Nat.max n (length s).
Proof. unfold padStart. rewrite length_app, repeat_length. lia. Qed.

Lemma padStart_Forall (P : code_unit -> Prop) n c s :
  P c -> Forall P s -> Forall P (padStart n c s).
Proof.
  intros Hc Hs. unfold padStart. apply Forall_app. split; [|exact Hs].
  apply Forall_forall. intros x Hx. apply repeat_spec in Hx. now subst.
Qed.

Lemma digits_value_app (a b : jsstring) :
  digits_value (a ++ b) = fold_left (fun acc c => 10 * acc + (c - 48)) b (digits_value a).
Proof. unfold digits_value. apply fold_left_app. Qed.

Lemma digits_value_zeros (n : nat) (s : jsstring) :
  digits_value (repeat 48 n ++ s) = digits_value s.
Proof.
  rewrite digits_value_app. f_equal.
  induction n as [|n IH]; [reflexivity|].
  change (repeat 48 (S n)) with ([48] ++ repeat 48 n).
  rewrite digits_value_app, <- IH. reflexivity.
Qed.

Lemma digits_fold (fuel : nat) : forall n acc,
  0 <= n < 10 ^ Z.of_nat fuel ->
  fold_left (fun a c => 10 * a + (c - 48)) (digits fuel n acc) 0
  = fold_left (fun a c => 10 * a + (c - 48)) acc n.
Proof.
  induction fuel as [|fuel IH]; intros n acc Hn.
  - simpl in *. assert (n = 0) by lia. now subst.
  - cbn [digits]. destruct (n <? 10) eqn:Hlt.
    + apply Z.ltb_lt in Hlt. cbn [fold_left].
      rewrite Z.mod_small by lia. f_equal. lia.
    + apply Z.ltb_ge in Hlt. rewrite IH.
      * cbn [fold_left]. f_equal.
        pose proof (Z.div_mod n 10 ltac:(lia)). lia.
      * rewrite Nat2Z.inj_succ, Z.pow_succ_r in Hn by lia.
        split; [apply Z.div_pos; lia | apply Z.div_lt_upper_bound; lia].
Qed.

Lemma decimal_fuel (n : Z) : 0 <= n -> n < 10 ^ Z.of_nat (S (Z.to_nat (Z.log2 n))).
Proof.
  intros Hn. rewrite Nat2Z.inj_succ, Z2Nat.id by apply Z.log2_nonneg.
  destruct (Z.eq_dec n 0) as [->|Hne]; [reflexivity|].
  assert (Hlog : n < 2 ^ Z.succ (Z.log2 n)) by (apply Z.log2_spec; lia).
  eapply Z.lt_le_trans; [exact Hlog|].
  apply Z.pow_le_mono_l. pose proof (Z.log2_nonneg n). lia.
Qed.

Lemma decimal_value (n : Z) : 0 <= n -> digits_value (decimal n) = n.
Proof.
  intros Hn. unfold digits_value, decimal.
  rewrite digits_fold; [reflexivity|]. split; [exact Hn | now apply decimal_fuel].
Qed.

Lemma digits_isDigit (fuel : nat) : forall n acc,
  Forall (fun c => isDigit c = true) acc ->
  Forall (fun c => isDigit c = true) (digits fuel n acc).
Proof.
  induction fuel as [|fuel IH]; intros n acc Hacc; [exact Hacc|].
  assert (Hd : isDigit (48 + n mod 10) = true).
  { unfold isDigit. pose proof (Z.mod_pos_bound n 10 ltac:(lia)).
    apply andb_true_iff. split; apply Z.leb_le; lia. }
  cbn [digits]. destruct (n <? 10); [|apply IH]; constructor; assumption.
Qed.

Lemma decimal_isDigit (n : Z) : Forall (fun c => isDigit c = true) (decimal n).
Proof. apply digits_isDigit. constructor. Qed.

(** Below a hundred, padding to two places gives the tens and the units. *)
Lemma pad2_digits (n : Z) :
  0 <= n < 100 -> padStart 2 zero (decimal n) = [48 + n / 10; 48 + n mod 10].
Proof.
  intros Hn.
  assert (Hall : forallb (fun i => let n := Z.of_nat i in
              str_eqb (padStart 2 zero (decimal n)) [48 + n / 10; 48 + n mod 10])
            (seq 0 100) = true) by (vm_compute; reflexivity).
  rewrite forallb_forall in Hall.
  specialize (Hall (Z.to_nat n)). cbv zeta in Hall.
  rewrite Z2Nat.id in Hall by lia.
  apply str_eqb_eq, Hall, in_seq. lia.
Qed.

(** Below a thousand, padding to three places gives the three digits. *)
Lemma pad3_digits (n : Z) :
  0 <= n < 1000 ->
  padStart 3 zero (decimal n) = [48 + n / 100; 48 + n / 10 mod 10; 48 + n mod 10].
Proof.
  intros Hn.
  assert (Hall : forallb (fun i => let n := Z.of_nat i in
              str_eqb (padStart 3 zero (decimal n))
                      [48 + n / 100; 48 + n / 10 mod 10; 48 + n mod 10])
            (seq 0 1000) = true) by (vm_compute; reflexivity).
  rewrite forallb_forall in Hall.
  specialize (Hall (Z.to_nat n)). cbv zeta in Hall.
  rewrite Z2Nat.id in Hall by lia.
  apply str_eqb_eq, Hall, in_seq. lia.
Qed.

(* ----------------------------------------------------------------- *)
(** ** Binary64 division of integers below 2^53 *)

Section SafeIntegers.

Import Float64.

Lemma digits2_size (p : positive) : digits2_pos p = Pos.size p.
Proof. induction p; simpl; congruence. Qed.

Lemma size_bounds (p : positive) :
  2 ^ (Z.pos (Pos.size p) - 1) <= Z.pos p < 2 ^ Z.pos (Pos.size p).
Proof.
  pose proof (Pos.size_gt p) as Hgt. pose proof (Pos.size_le p) as Hle.
  split.
  - assert (H : 2 ^ Z.pos (Pos.size p) <= 2 * Z.pos p).
    { change (2 * Z.pos p) with (Z.pos (p~0)). rewrite <- Pos2Z.inj_pow.
      apply Pos2Z.pos_le_pos. exact Hle. }
    replace (Z.pos (Pos.size p)) with (Z.succ (Z.pos (Pos.size p) - 1)) in H by lia.
    rewrite Z.pow_succ_r in H by lia. lia.
  - rewrite <- Pos2Z.inj_pow. apply Pos2Z.pos_lt_pos. exact Hgt.
Qed.

Lemma size_unique (p : positive) (d : Z) :
  2 ^ (d - 1) <= Z.pos p < 2 ^ d -> Z.pos (Pos.size p) = d.
Proof.
  intros [Hlo Hhi]. pose proof (size_bounds p) as [Hl Hh].
  assert (0 < d).
  { destruct (Z.ltb_spec 0 d); [assumption|].
    assert (2 ^ d <= 2 ^ 0) by (apply Z.pow_le_mono_r; lia). simpl in *. lia. }
  destruct (Z.lt_trichotomy (Z.pos (Pos.size p)) d) as [Hc|[Hc|Hc]]; [|assumption|].
  - assert (2 ^ Z.pos (Pos.size p) <= 2 ^ (d - 1)) by (apply Z.pow_le_mono_r; lia). lia.
  - assert (2 ^ d <= 2 ^ (Z.pos (Pos.size p) - 1)) by (apply Z.pow_le_mono_r; lia). lia.
Qed.

Lemma iter_xO (p k : positive) : Z.pos (Pos.iter xO p k) = Z.pos p * 2 ^ Z.pos k.
Proof.
  revert p. induction k using Pos.peano_ind; intros p.
  - simpl. lia.
  - rewrite Pos.iter_succ. rewrite Pos2Z.inj_succ, Z.pow_succ_r by lia.
    change (Z.pos (Pos.iter xO p k)~0) with (2 * Z.pos (Pos.iter xO p k)).
    rewrite IHk. lia.
Qed.

Let finish (m : Z) (e : Z) : float :=
  let '(mrs, e') := shr_fexp prec emax m e loc_Exact in
  match shr_m mrs with
  | Z0 => S754_zero false
  | Zpos m => if e' <=? emax - prec then S754_finite false m e' else S754_infinity false
  | _ => S754_nan
  end.

Lemma binary_round_aux_finish (mx ex : Z) (lx : location) :
  binary_round_aux prec emax false mx ex lx
  = let '(mrs, e) := shr_fexp prec emax mx ex lx in
    finish (round_nearest_even (shr_m mrs) (loc_of_shr_record mrs)) e.
Proof. reflexivity. Qed.

Lemma shr_fexp_53 (m : positive) (e : Z) (l : location) :
  Z.pos (Pos.size m) = 53 -> -1074 <= e ->
  shr_fexp prec emax (Z.pos m) e l = (shr_record_of_loc (Z.pos m) l, e).
Proof.
  intros Hs He. unfold shr_fexp, Zdigits2. rewrite digits2_size, Hs.
  assert (H : fexp prec emax (53 + e) - e = 0).
  { unfold fexp, SpecFloat.emin, prec, emax. lia. }
  rewrite H. reflexivity.
Qed.

Lemma shr_fexp_54 (m : positive) (e : Z) (l : location) :
  Z.pos (Pos.size m) = 54 -> -1074 <= e ->
  shr_fexp prec emax (Z.pos m) e l
  = (shr_1 (shr_record_of_loc (Z.pos m) l), e + 1).
Proof.
  intros Hs He. unfold shr_fexp, Zdigits2. rewrite digits2_size, Hs.
  assert (H : fexp prec emax (54 + e) - e = 1).
  { unfold fexp, SpecFloat.emin, prec, emax. lia. }
  rewrite H. reflexivity.
Qed.

Lemma loc_of_record (m : Z) (l : location) :
  loc_of_shr_record (shr_record_of_loc m l) = l
  /\ shr_m (shr_record_of_loc m l) = m.
Proof. destruct l as [|[]]; split; reflexivity. Qed.

Lemma finish_floor (m : positive) (e : Z) :
  2 ^ 52 <= Z.pos m <= 2 ^ 53 -> -1074 <= e <= 0 ->
  floor (finish (Z.pos m) e) = Int (Z.pos m / 2 ^ (- e)).
Proof.
  intros Hm He. unfold finish.
  destruct (Z.eq_dec (Z.pos m) (2 ^ 53)) as [Htop | Hlt].
  - rewrite shr_fexp_54 by (try lia; apply size_unique; rewrite Htop; simpl; lia).
    assert (Hm' : m = 9007199254740992%positive) by (apply Pos2Z.inj; exact Htop).
    subst m. cbn [shr_record_of_loc shr_1 shr_m].
    assert (Hle : (e + 1 <=? emax - prec) = true) by (apply Z.leb_le; unfold emax, prec; lia).
    rewrite Hle. unfold floor.
    destruct (Z.leb_spec 0 (e + 1)) as [H0 | H0].
    + assert (Hc : e = 0 \/ e = -1) by lia. destruct Hc; subst e; reflexivity.
    + replace (- e) with (1 + (- (e + 1))) by lia.
      rewrite Z.pow_add_r by lia.
      change (Z.pos 9007199254740992) with (2 ^ 1 * Z.pos 4503599627370496).
      rewrite Z.div_mul_cancel_l; try lia.
      reflexivity.
  - rewrite shr_fexp_53 by (try lia; apply size_unique; simpl; lia).
    cbn [shr_record_of_loc shr_m].
    assert (Hle : (e <=? emax - prec) = true) by (apply Z.leb_le; unfold emax, prec; lia).
    rewrite Hle. unfold floor.
    destruct (Z.leb_spec 0 e) as [H0 | H0].
    + assert (e = 0) by lia. subst e. simpl. rewrite Z.div_1_r. f_equal. lia.
    + reflexivity.
Qed.

(** Rounding a quotient of 53 or 54 bits: the mantissa kept, and when it
    is the upper neighbour. *)
Lemma round_floor_53 (q : positive) (e : Z) (l : location) :
  2 ^ 52 <= Z.pos q < 2 ^ 53 -> -1074 <= e <= 0 ->
  exists m1,
    floor (binary_round_aux prec emax false (Z.pos q) e l) = Int (m1 / 2 ^ (- e))
    /\ (m1 = Z.pos q
        \/ m1 = Z.pos q + 1 /\ (l = loc_Inexact Eq \/ l = loc_Inexact Gt)).
Proof.
  intros Hq He. rewrite binary_round_aux_finish.
  rewrite shr_fexp_53 by (try lia; apply size_unique; simpl; lia).
  destruct (loc_of_record (Z.pos q) l) as [Hl Hm]. rewrite Hl, Hm.
  exists (round_nearest_even (Z.pos q) l). split.
  - assert (Hr : round_nearest_even (Z.pos q) l = Z.pos q
                 \/ round_nearest_even (Z.pos q) l = Z.pos (q + 1)).
    { destruct l as [|[]]; simpl; auto. destruct q; simpl; auto. }
    destruct Hr as [Hr | Hr]; rewrite Hr; apply finish_floor; lia.
  - destruct l as [|[]]; cbn [round_nearest_even]; auto.
    destruct (Z.even (Z.pos q)); auto.
Qed.

Lemma round_floor_54 (q : positive) (e : Z) (l : location) :
  2 ^ 53 <= Z.pos q < 2 ^ 54 -> -1074 <= e <= -1 ->
  exists m1,
    floor (binary_round_aux prec emax false (Z.pos q) e l)
      = Int (m1 / 2 ^ (- (e + 1)))
    /\ (m1 = Z.pos q / 2
        \/ m1 = Z.pos q / 2 + 1 /\ Z.odd (Z.pos q) = true).
Proof.
  intros Hq He. rewrite binary_round_aux_finish.
  rewrite shr_fexp_54 by (try lia; apply size_unique; simpl; lia).
  set (mrs := shr_1 (shr_record_of_loc (Z.pos q) l)).
  assert (Hmrs : shr_m mrs = Z.pos q / 2
                 /\ shr_r mrs = Z.odd (Z.pos q)).
  { unfold mrs. destruct l as [|[]]; destruct q as [q|q|]; cbn [shr_record_of_loc shr_1 shr_m shr_r];
      try (change (2 ^ 53) with 9007199254740992 in Hq; lia); split; try reflexivity.
    all: try (apply Z.div_unique with (r := 1); lia).
    all: try (apply Z.div_unique with (r := 0); lia). }
  destruct Hmrs as [Hm Hr].
  exists (round_nearest_even (shr_m mrs) (loc_of_shr_record mrs)).
  assert (Hhalf : 2 ^ 52 <= Z.pos q / 2 < 2 ^ 53).
  { split; [apply Z.div_le_lower_bound | apply Z.div_lt_upper_bound]; simpl in *; lia. }
  assert (Hcases : round_nearest_even (shr_m mrs) (loc_of_shr_record mrs) = Z.pos q / 2
                   \/ round_nearest_even (shr_m mrs) (loc_of_shr_record mrs) = Z.pos q / 2 + 1
                      /\ Z.odd (Z.pos q) = true).
  { rewrite Hm, <- Hr. destruct mrs as [m r s]. cbn [shr_r loc_of_shr_record].
    destruct r, s; simpl; auto. destruct (Z.even (Z.pos q / 2)); auto. }
  split; [|exact Hcases].
  destruct (Z.pos q / 2) as [|h|h] eqn:Hh; try lia.
  destruct Hcases as [Hc | [Hc _]]; rewrite Hc.
  - replace (e + 1) with (e + 1) by lia. apply finish_floor; lia.
  - change (Z.pos h + 1) with (Z.pos (h + 1)). apply finish_floor; lia.
Qed.

Lemma finish_53 (m : positive) (e : Z) :
  Z.pos (Pos.size m) = 53 -> -1074 <= e <= 971 ->
  finish (Z.pos m) e = S754_finite false m e.
Proof.
  intros Hs He. unfold finish. rewrite shr_fexp_53 by (try lia; assumption).
  cbn [shr_record_of_loc shr_m].
  assert (Hle : (e <=? emax - prec) = true) by (apply Z.leb_le; unfold emax, prec; lia).
  now rewrite Hle.
Qed.

(** A positive integer below 2^53 is a double: its mantissa is the
    integer shifted left to 53 bits. *)
Lemma of_Z_pos (p : positive) :
  Z.pos p < 2 ^ 53 ->
  exists m e,
    of_Z (Z.pos p) = S754_finite false m e
    /\ Z.pos (Pos.size m) = 53 /\ -52 <= e <= 0
    /\ Z.pos m = Z.pos p * 2 ^ (- e).
Proof.
  intros Hp. pose proof (size_bounds p) as [Hlo Hhi].
  assert (Hd : Z.pos (Pos.size p) <= 53).
  { destruct (Z.leb_spec (Z.pos (Pos.size p)) 53) as [H | H]; [assumption|].
    assert (2 ^ 53 <= 2 ^ (Z.pos (Pos.size p) - 1)) by (apply Z.pow_le_mono_r; lia).
    lia. }
  unfold of_Z, binary_normalize, binary_round. rewrite digits2_size.
  assert (Hf : fexp prec emax (Z.pos (Pos.size p) + 0) = Z.pos (Pos.size p) - 53).
  { unfold fexp, SpecFloat.emin, prec, emax. lia. }
  rewrite Hf. unfold shl_align. rewrite Z.sub_0_r.
  destruct (Z.pos (Pos.size p) - 53) as [|k|k] eqn:Hk; try lia.
  - exists p, 0. rewrite binary_round_aux_finish, shr_fexp_53 by lia.
    cbn [shr_record_of_loc shr_m loc_of_shr_record round_nearest_even].
    rewrite finish_53 by lia. repeat split; try lia.
  - assert (Hm : Z.pos (Pos.iter xO p k) = Z.pos p * 2 ^ Z.pos k) by apply iter_xO.
    assert (Hs : Z.pos (Pos.size (Pos.iter xO p k)) = 53).
    { apply size_unique. rewrite Hm.
      assert (Hsplit : 2 ^ 53 = 2 ^ Z.pos (Pos.size p) * 2 ^ Z.pos k).
      { rewrite <- Z.pow_add_r by lia. f_equal. lia. }
      assert (Hsplit' : 2 ^ (53 - 1) = 2 ^ (Z.pos (Pos.size p) - 1) * 2 ^ Z.pos k).
      { rewrite <- Z.pow_add_r by lia. f_equal. lia. }
      rewrite Hsplit, Hsplit'.
      assert (0 < 2 ^ Z.pos k) by (apply Z.pow_pos_nonneg; lia).
      split; [apply Z.mul_le_mono_nonneg_r | apply Z.mul_lt_mono_pos_r]; lia. }
    exists (Pos.iter xO p k), (Z.neg k).
    rewrite binary_round_aux_finish, shr_fexp_53 by lia.
    cbn [shr_record_of_loc shr_m loc_of_shr_record round_nearest_even].
    rewrite finish_53 by lia. repeat split; try lia. exact Hm.
Qed.

Lemma div_core (mx my : positive) (ex ey : Z) :
  Z.pos (Pos.size mx) = 53 -> Z.pos (Pos.size my) = 53 ->
  -52 <= ex <= 0 -> -52 <= ey <= 0 ->
  div (S754_finite false mx ex) (S754_finite false my ey)
  = binary_round_aux prec emax false
      (Z.pos mx * 2 ^ 53 / Z.pos my) (ex - ey - 53)
      (new_location (Z.pos my) ((Z.pos mx * 2 ^ 53) mod Z.pos my)).
Proof.
  intros Hx Hy Hex Hey. unfold div, SFdiv, SFdiv_core_binary.
  cbn [Zdigits2 xorb]. rewrite (digits2_size mx), (digits2_size my). rewrite Hx, Hy.
  assert (He : Z.min (fexp prec emax (53 + ex - (53 + ey))) (ex - ey) = ex - ey - 53).
  { unfold fexp, SpecFloat.emin, prec, emax. lia. }
  rewrite He. replace (ex - ey - (ex - ey - 53)) with 53 by lia.
  cbv iota beta. rewrite Z.shiftl_mul_pow2 by lia.
  unfold Z.div, Z.modulo.
  destruct (Z.div_eucl (Z.pos mx * 2 ^ 53) (Z.pos my)) as [q r]. reflexivity.
Qed.

Lemma new_location_up (n r : Z) :
  0 < n -> 0 <= r ->
  new_location n r = loc_Inexact Eq \/ new_location n r = loc_Inexact Gt ->
  n <= 2 * r.
Proof.
  intros Hn Hr. unfold new_location, new_location_even, new_location_odd.
  destruct (Z.even n) eqn:Hev.
  - destruct (Z.eqb_spec r 0) as [|Hne]; [intros [H|H]; discriminate|].
    destruct (Z.compare_spec (2 * r) n) as [Hc|Hc|Hc]; intros [H|H]; try discriminate; lia.
  - destruct (Z.eqb_spec r 0) as [|Hne]; [intros [H|H]; discriminate|].
    destruct (Z.compare_spec (2 * r + 1) n) as [Hc|Hc|Hc]; intros [H|H]; try discriminate; lia.
Qed.

(** The quotient kept at [P] units per integer: flooring it gives the
    integer quotient, also after rounding up by one unit. *)
Lemma floor_of_rounded_53 (a b T P q r m1 : Z) :
  0 < a < 2 ^ 53 -> 0 < b -> 0 < T -> 0 < P ->
  a * P * T = q * (b * T) + r -> 0 <= r < b * T ->
  2 ^ 52 <= q ->
  m1 = q \/ m1 = q + 1 /\ b * T <= 2 * r ->
  m1 / P = a / b.
Proof.
  intros Ha Hb HT HP Hdiv Hr Hq Hm.
  pose proof (Z.div_mod a b ltac:(lia)) as Hab.
  pose proof (Z.mod_pos_bound a b ltac:(lia)) as Hr0.
  set (k := a / b) in *. set (r0 := a mod b) in *.
  assert (Hk : 0 <= k) by (apply Z.div_pos; lia).
  symmetry. apply Z.div_unique with (r := m1 - P * k); [|lia]. left.
  assert (Hlow : P * k <= q).
  { assert (b * T * (P * k) < b * T * (q + 1)) by nia.
    assert (P * k < q + 1) by (apply Z.mul_lt_mono_pos_l with (p := b * T); nia).
    lia. }
  assert (Hup : q < P * (k + 1)).
  { apply Z.mul_lt_mono_pos_l with (p := b * T); [nia|]. nia. }
  destruct Hm as [-> | [-> Hhalf]]; [lia|].
  split; [lia|].
  assert (Hne : q + 1 <> P * (k + 1)).
  { intros Heq. assert (Hq' : q = P * (k + 1) - 1) by lia.
    assert (Hb2 : b < 2 * P).
    { assert (2 ^ 52 * b <= q * b) by nia. 
      assert (q * b * T <= a * P * T) by nia.
      assert (q * b <= a * P) by (apply Z.mul_le_mono_pos_r with (p := T); lia).
      assert (a * P < 2 ^ 53 * P) by nia.
      change (2 ^ 53) with (2 * 2 ^ 52) in *. 
      assert (2 ^ 52 * b < 2 ^ 52 * (2 * P)) by lia.
      apply Z.mul_lt_mono_pos_l with (p := 2 ^ 52); lia. }
    assert (Hr' : r = P * T * (a - (k + 1) * b) + b * T) by (subst q; nia).
    assert (a - (k + 1) * b <= -1) by nia.
    assert (P * T * (a - (k + 1) * b) <= P * T * (-1)) by (apply Z.mul_le_mono_nonneg_l; nia).
    assert (2 * P * T <= b * T) by nia.
    assert (2 * P <= b) by (apply Z.mul_le_mono_pos_r with (p := T); lia).
    lia. }
  lia.
Qed.

Lemma floor_of_rounded_54 (a b T P q r m1 : Z) :
  0 < a < 2 ^ 53 -> 0 < b -> 0 < T -> 0 < P ->
  a * (2 * P) * T = q * (b * T) + r -> 0 <= r < b * T ->
  2 ^ 53 <= q ->
  m1 = q / 2 \/ m1 = q / 2 + 1 /\ Z.odd q = true ->
  m1 / P = a / b.
Proof.
  intros Ha Hb HT HP Hdiv Hr Hq Hm.
  pose proof (Z.div_mod a b ltac:(lia)) as Hab.
  pose proof (Z.mod_pos_bound a b ltac:(lia)) as Hr0.
  set (k := a / b) in *. set (r0 := a mod b) in *.
  assert (Hk : 0 <= k) by (apply Z.div_pos; lia).
  pose proof (Z.div_mod q 2 ltac:(lia)) as Hq2.
  pose proof (Z.mod_pos_bound q 2 ltac:(lia)) as Ho.
  set (h := q / 2) in *.
  symmetry. apply Z.div_unique with (r := m1 - P * k); [|lia]. left.
  assert (Hlow : 2 * P * k <= q).
  { assert (b * T * (2 * P * k) < b * T * (q + 1)) by nia.
    assert (2 * P * k < q + 1) by (apply Z.mul_lt_mono_pos_l with (p := b * T); nia).
    lia. }
  assert (Hup : q < 2 * P * (k + 1)).
  { apply Z.mul_lt_mono_pos_l with (p := b * T); [nia|]. nia. }
  destruct Hm as [-> | [-> Hodd]]; [lia|].
  split; [lia|].
  apply Z.odd_spec in Hodd. destruct Hodd as [w Hw].
  assert (Hne : q + 1 <> 2 * P * (k + 1)).
  { intros Heq.
    assert (Hb2 : b < 2 * P).
    { assert (2 ^ 53 * b <= q * b) by nia.
      assert (q * b * T <= a * (2 * P) * T) by nia.
      assert (q * b <= a * (2 * P)) by (apply Z.mul_le_mono_pos_r with (p := T); lia).
      assert (a * (2 * P) < 2 ^ 53 * (2 * P)) by nia.
      apply Z.mul_lt_mono_pos_l with (p := 2 ^ 53); lia. }
    assert (Hqb : q * b * T <= a * (2 * P) * T) by nia.
    assert (Hqb' : q * b <= a * (2 * P)) by (apply Z.mul_le_mono_pos_r with (p := T); lia).
    assert (a - (k + 1) * b <= -1) by nia.
    assert (q * b = 2 * P * ((k + 1) * b) - b) by nia.
    assert (2 * P * ((k + 1) * b - a) <= b) by nia.
    assert (2 * P * 1 <= 2 * P * ((k + 1) * b - a)) by (apply Z.mul_le_mono_nonneg_l; lia).
    lia. }
  lia.
Qed.

(** Dividing two integers below 2^53 in binary64 and flooring the
    rounded quotient gives the integer quotient. *)
Lemma div_floor (a b : Z) :
  0 <= a < 2 ^ 53 -> 0 < b < 2 ^ 53 ->
  floor (div (of_Z a) (of_Z b)) = Int (a / b).
Proof.
  intros Ha Hb.
  destruct b as [|pb|pb]; try lia.
  destruct (of_Z_pos pb ltac:(lia)) as (my & ey & Hofb & Hsy & Hey & Hmy).
  rewrite Hofb.
  destruct a as [|pa|pa]; try lia.
  - reflexivity.
  - destruct (of_Z_pos pa ltac:(lia)) as (mx & ex & Hofa & Hsx & Hex & Hmx).
    rewrite Hofa, div_core by assumption.
    pose proof (size_bounds mx) as Hbx. pose proof (size_bounds my) as Hby.
    rewrite Hsx in Hbx. rewrite Hsy in Hby.
    change (2 ^ (53 - 1)) with (2 ^ 52) in *.
    pose proof (Z.div_mod (Z.pos mx * 2 ^ 53) (Z.pos my) ltac:(lia)) as Hdm.
    pose proof (Z.mod_pos_bound (Z.pos mx * 2 ^ 53) (Z.pos my) ltac:(lia)) as Hrb.
    set (q := Z.pos mx * 2 ^ 53 / Z.pos my) in *.
    set (r := (Z.pos mx * 2 ^ 53) mod Z.pos my) in *.
    set (Ta := 2 ^ (- ex)) in *. set (Tb := 2 ^ (- ey)) in *.
    assert (HTa : 0 < Ta) by (apply Z.pow_pos_nonneg; lia).
    assert (HTb : 0 < Tb) by (apply Z.pow_pos_nonneg; lia).
    assert (HP : 2 ^ (- (ex - ey - 53)) * Tb = 2 ^ 53 * Ta).
    { unfold Ta, Tb. rewrite <- !Z.pow_add_r by lia. f_equal. lia. }
    assert (HPpos : 0 < 2 ^ (- (ex - ey - 53))) by (apply Z.pow_pos_nonneg; lia).
    set (P := 2 ^ (- (ex - ey - 53))) in *.
    assert (Hdiv : Z.pos pa * P * Tb = q * (Z.pos pb * Tb) + r).
    { rewrite <- Hmy. rewrite <- Z.mul_assoc, HP.
      replace (Z.pos pa * (2 ^ 53 * Ta)) with (Z.pos pa * Ta * 2 ^ 53) by ring.
      rewrite <- Hmx. rewrite Hdm at 1. ring. }
    rewrite Hmy in Hrb.
    assert (Hqlo : 2 ^ 52 <= q).
    { apply Z.div_le_lower_bound; [lia|].
      transitivity (2 ^ 53 * 2 ^ 52); [|nia].
      apply Z.mul_le_mono_nonneg_r; lia. }
    assert (Hqhi : q < 2 ^ 54).
    { apply Z.div_lt_upper_bound; [lia|].
      apply Z.lt_le_trans with (2 ^ 53 * 2 ^ 53); [nia|].
      change (2 ^ 54) with (2 ^ 52 * 4). change (2 ^ 53) with (2 ^ 52 * 2).
      nia. }
    destruct q as [|pq|pq] eqn:Hq; try (change (2 ^ 52) with 4503599627370496 in Hqlo; lia).
    destruct (Z.ltb_spec (Z.pos pq) (2 ^ 53)) as [H53 | H54].
    + destruct (round_floor_53 pq (ex - ey - 53)
                  (new_location (Z.pos my) r) ltac:(lia) ltac:(lia))
        as (m1 & Hfl & Hm1).
      rewrite Hfl. f_equal. fold P.
      apply floor_of_rounded_53 with (T := Tb) (q := Z.pos pq) (r := r);
        try lia; try assumption.
      destruct Hm1 as [Hm1 | [Hm1 Hloc]]; [left; exact Hm1 | right; split; [exact Hm1|]].
      rewrite <- Hmy. apply new_location_up; lia || assumption.
    + destruct (round_floor_54 pq (ex - ey - 53)
                  (new_location (Z.pos my) r) ltac:(lia) ltac:(lia))
        as (m1 & Hfl & Hm1).
      rewrite Hfl. f_equal.
      assert (HP2 : P = 2 * 2 ^ (- (ex - ey - 53 + 1))).
      { unfold P. rewrite <- Z.pow_succ_r by lia. f_equal. lia. }
      apply floor_of_rounded_54 with (T := Tb) (q := Z.pos pq) (r := r);
        try lia; try assumption.
Qed.

End SafeIntegers.

(** [Math.floor(z / d)] is the integer quotient as long as both are
    below 2^53. *)
Lemma floor_div_safe (z d : Z) :
  0 <= z < 2 ^ 53 -> 0 < d < 2 ^ 53 -> floor_div (Int z) d = Int (z / d).
Proof. intros Hz Hd. unfold floor_div. now apply div_floor. Qed.

(** Below 2^53 a non-negative integer prints every digit. *)
Lemma toString_safe (z : Z) :
  0 <= z < 2 ^ 53 -> toString (Int z) = decimal z.
Proof.
  intros Hz. unfold toString, integer_toString.
  destruct (Z.ltb_spec z 0); [lia|].
  destruct (Z.ltb_spec z (2 ^ 53)); [reflexivity | lia].
Qed.

(* ----------------------------------------------------------------- *)
(** ** The time codec *)

(** The clamped time rendered field by field, for an integer below 2^53. *)
Lemma msToSrtTime_render (c : Z) :
  0 <= c < 2 ^ 53 ->
  let m := c mod 3600000 / 60000 in
  let s := c mod 60000 / 1000 in
  let k := c mod 1000 in
  msToSrtTime (Int c)
  = padStart 2 zero (decimal (c / 3600000))
      ++ 58 :: [48 + m / 10; 48 + m mod 10; 58; 48 + s / 10; 48 + s mod 10; 44;
                48 + k / 100; 48 + k / 10 mod 10; 48 + k mod 10].
Proof.
  intros Hc m s k.
  assert (H53 : 2 ^ 53 = 9007199254740992) by reflexivity.
  pose proof (Z.mod_pos_bound c 3600000 ltac:(lia)) as Hr1.
  pose proof (Z.mod_pos_bound c 60000 ltac:(lia)) as Hr2.
  assert (Hk : 0 <= k < 1000) by (subst k; apply Z.mod_pos_bound; lia).
  assert (Hh : 0 <= c / 3600000 < 2 ^ 53).
  { split; [apply Z.div_pos; lia | apply Z.div_lt_upper_bound; lia]. }
  assert (Hm : 0 <= m < 60).
  { subst m. split; [apply Z.div_pos; lia | apply Z.div_lt_upper_bound; lia]. }
  assert (Hs : 0 <= s < 60).
  { subst s. split; [apply Z.div_pos; lia | apply Z.div_lt_upper_bound; lia]. }
  unfold msToSrtTime, lt0, rem.
  replace (c <? 0) with false by (symmetry; apply Z.ltb_ge; lia).
  rewrite !Z.rem_mod_nonneg by lia.
  rewrite !floor_div_safe by lia. fold m s k.
  rewrite !toString_safe by lia.
  rewrite (pad2_digits m), (pad2_digits s), (pad3_digits k) by lia.
  reflexivity.
Qed.

(** C4. For every integer [ms] below 2^53, [msToSrtTime] clamps a
    negative input to 0, splits the clamped value into hours, minutes,
    seconds and milliseconds by floor division with moduli 3,600,000 /
    60,000 / 1,000, and renders [HH:MM:SS,mmm]: the hours in decimal
    padded to at least two digits, minutes and seconds as exactly two
    digits, milliseconds as exactly three.  A negative input renders as
    0 does, and 3661001 renders as 01:01:01,001. *)
Theorem msToSrtTime_spec (ms : Z) :
  ms < 2 ^ 53 ->
  let c := Z.max 0 ms in
  let h := c / 3600000 in
  let m := c mod 3600000 / 60000 in
  let s := c mod 60000 / 1000 in
  let k := c mod 1000 in
  let hh := padStart 2 zero (decimal h) in
  msToSrtTime (Int ms)
    = hh ++ js ":" ++ [48 + m / 10; 48 + m mod 10]
         ++ js ":" ++ [48 + s / 10; 48 + s mod 10]
         ++ js "," ++ [48 + k / 100; 48 + k / 10 mod 10; 48 + k mod 10]
  /\ (2 <= length hh)%nat
  /\ Forall (fun u => isDigit u = true) hh
  /\ digits_value hh = h
  /\ c = h * 3600000 + m * 60000 + s * 1000 + k
  /\ 0 <= m < 60 /\ 0 <= s < 60 /\ 0 <= k < 1000
  /\ msToSrtTime (Int ms) = msToSrtTime (Int (Z.max 0 ms))
  /\ msToSrtTime (Int 3661001) = js "01:01:01,001".
Proof.
  intros Hsafe c h m s k hh.
  assert (Hc : 0 <= c < 2 ^ 53).
  { subst c. split; [lia|]. apply Z.max_lub_lt; [reflexivity | exact Hsafe]. }
  assert (Hclamp : msToSrtTime (Int ms) = msToSrtTime (Int c)).
  { unfold msToSrtTime, lt0. subst c.
    destruct (Z.ltb_spec ms 0) as [Hneg|Hpos].
    - rewrite Z.max_l by lia. reflexivity.
    - rewrite Z.max_r by lia.
      destruct (Z.ltb_spec ms 0); [lia | reflexivity]. }
  assert (Hh : 0 <= h) by (subst h; apply Z.div_pos; lia).
  assert (Hm : 0 <= m < 60).
  { subst m. pose proof (Z.mod_pos_bound c 3600000 ltac:(lia)).
    split; [apply Z.div_pos; lia | apply Z.div_lt_upper_bound; lia]. }
  assert (Hs : 0 <= s < 60).
  { subst s. pose proof (Z.mod_pos_bound c 60000 ltac:(lia)).
    split; [apply Z.div_pos; lia | apply Z.div_lt_upper_bound; lia]. }
  assert (Hk : 0 <= k < 1000) by (subst k; apply Z.mod_pos_bound; lia).
  split_all; try assumption; try lia.
  - rewrite Hclamp, (msToSrtTime_render c Hc). reflexivity.
  - subst hh. rewrite padStart_length. lia.
  - subst hh. apply padStart_Forall; [reflexivity | apply decimal_isDigit].
  - subst hh. unfold padStart, zero. rewrite digits_value_zeros.
    now apply decimal_value.
  - subst h m s k.
    pose proof (Z.div_mod c 3600000 ltac:(lia)) as E1.
    pose proof (Z.div_mod (c mod 3600000) 60000 ltac:(lia)) as E2.
    pose proof (Z.div_mod (c mod 60000) 1000 ltac:(lia)) as E3.
    assert (E4 : (c mod 3600000) mod 60000 = c mod 60000).
    { apply Z.mod_mod_divide. exists 60. reflexivity. }
    assert (E5 : (c mod 60000) mod 1000 = c mod 1000).
    { apply Z.mod_mod_divide. exists 60. reflexivity. }
    lia.
  - vm_compute. reflexivity.
Qed.

Lemma msToSrtTime_spec_witness :
  3723004 < 2 ^ 53
  /\ msToSrtTime (Int 3723004) = js "01:02:03,004"
  /\ digits_value (js "01") = 1.
Proof.
  split; [reflexivity|].
  destruct (msToSrtTime_spec 3723004 eq_refl) as (E & _ & _ & V & _).
  split; [exact E | exact V].
Defined.

(** C4, from 2^53 on.  1979120930000399872 is a double, 3599872 ms past
    549755813888 hours.  The quotient by 3,600,000 is rounded to
    binary64 before it is floored, and it rounds up to the next whole
    hour: the hour field reads one hour more than floor division gives,
    next to 59 minutes, 59 seconds and 872 milliseconds. *)
Lemma msToSrtTime_hour_rounds_up :
  Float64.floor (Float64.of_Z 1979120930000399872) = Int 1979120930000399872
  /\ msToSrtTime (Int 1979120930000399872) = js "549755813889:59:59,872"
  /\ 1979120930000399872 / 3600000 = 549755813888.
Proof. vm_compute. repeat split. Qed.

(* ----------------------------------------------------------------- *)
(** ** The serializer *)

Lemma srt_step_block (acc : jsstring) (k : Z) (u : utterance) :
  srt_step (acc, k) u
  = if truthy (trim (text u)) then (acc ++ block k u, k + 1) else (acc, k).
Proof.
  unfold srt_step, block. destruct (truthy (trim (text u))); [|reflexivity].
  rewrite <- !app_assoc. reflexivity.
Qed.

Lemma srt_step_fold (us : list utterance) : forall acc k,
  fold_left srt_step us (acc, k)
  = (acc ++ numbered_blocks k (emitted us), k + Z.of_nat (length (emitted us))).
Proof.
  induction us as [|u us IH]; intros acc k.
  - cbn [fold_left emitted filter numbered_blocks length].
    rewrite app_nil_r, Z.add_0_r. reflexivity.
  - cbn [fold_left]. rewrite srt_step_block.
    unfold emitted. cbn [filter]. fold (emitted us).
    destruct (truthy (trim (text u))).
    + rewrite IH. cbn [numbered_blocks length].
      rewrite <- app_assoc. f_equal. lia.
    + apply IH.
Qed.

Lemma generateSRT_numbered (us : list utterance) :
  generateSRT us = numbered_blocks 1 (emitted us).
Proof. unfold generateSRT. rewrite srt_step_fold. reflexivity. Qed.

Lemma combine_map_fst {A B C : Type} (f : A -> C) (l : list A) : forall l' : list B,
  combine (map f l) l' = map (fun ab => (f (fst ab), snd ab)) (combine l l').
Proof.
  induction l as [|a l IH]; intros [|b l']; try reflexivity.
  cbn [map combine fst snd]. now rewrite IH.
Qed.

Lemma numbered_blocks_concat (cues : list utterance) : forall k,
  numbered_blocks k cues
  = concat (map (fun iu => block (k + Z.of_nat (fst iu)) (snd iu))
                (combine (seq 0 (length cues)) cues)).
Proof.
  induction cues as [|u cues IH]; intros k; [reflexivity|].
  cbn [numbered_blocks length seq combine map concat fst snd].
  rewrite Z.add_0_r. f_equal.
  rewrite IH, <- seq_shift, combine_map_fst, map_map. f_equal.
  apply map_ext. intros [i v]. cbn [fst snd]. f_equal. lia.
Qed.

(** C3. The serializer emits one block for each utterance whose trimmed
    text is not empty, in order, and nothing for the others; a block is
    the sequence number, the line [start --> end], the trimmed text and
    a blank line; the [i]-th emitted block (from 0) carries the number
    [i + 1], whatever was dropped before it.  Of the three utterances
    "a", "  ", "b" the output holds blocks 1 and 2, for "a" and "b". *)
Theorem generateSRT_blocks (utterances : list utterance) :
  let cues := filter (fun u => truthy (trim (text u))) utterances in
  generateSRT utterances
    = concat (map (fun iu => block (Z.of_nat (fst iu) + 1) (snd iu))
                  (combine (seq 0 (length cues)) cues))
  /\ (forall k u,
        block k u
        = Z_toString k ++ nl
            ++ msToSrtTime (start_time u) ++ js " --> "
            ++ msToSrtTime (end_time u) ++ nl
            ++ trim (text u) ++ nl ++ nl)
  /\ (let a := {| start_time := Int 0; end_time := Int 1000; text := js "a" |} in
      let blank := {| start_time := Int 1000; end_time := Int 2000; text := js "  " |} in
      let b := {| start_time := Int 2000; end_time := Int 3000; text := js "b" |} in
      generateSRT [a; blank; b]
      = js "1" ++ nl ++ js "00:00:00,000 --> 00:00:01,000" ++ nl ++ js "a" ++ nl ++ nl
          ++ js "2" ++ nl ++ js "00:00:02,000 --> 00:00:03,000" ++ nl ++ js "b" ++ nl ++ nl).
Proof.
  intros cues. split_all.
  - rewrite generateSRT_numbered, numbered_blocks_concat. fold cues.
    f_equal. apply map_ext. intros [i u]. cbn [fst snd]. f_equal. lia.
  - reflexivity.
  - vm_compute. reflexivity.
Qed.

(** C10. When the trimmed text of every utterance is empty, and so for
    no utterances at all, the serializer returns the empty string. *)
Theorem generateSRT_all_blank (utterances : list utterance) :
  Forall (fun u => trim (text u) = []) utterances ->
  generateSRT utterances = [].
Proof.
  intros Hall. rewrite generateSRT_numbered.
  replace (emitted utterances) with (@nil utterance); [reflexivity|].
  symmetry. unfold emitted.
  induction Hall as [|u us Hu _ IH]; [reflexivity|].
  simpl. rewrite Hu. exact IH.
Qed.

Lemma generateSRT_all_blank_witness :
  generateSRT [ {| start_time := Int 0; end_time := Int 500; text := js "  " |};
                {| start_time := Int 500; end_time := Int 900; text := [] |} ] = []
  /\ generateSRT [] = [].
Proof.
  split.
  - apply generateSRT_all_blank. repeat constructor.
  - apply generateSRT_all_blank. constructor.
Defined.

(* ----------------------------------------------------------------- *)
(** ** Colour translation *)

Section Colour.
Variable unicode_upper : Z -> jsstring.

Let cssToAssColor := Video.cssToAssColor unicode_upper.

Lemma toUpperCase_marker (x : jsstring) :
  toUpperCase unicode_upper (js "&H00" ++ x)
  = js "&H00" ++ toUpperCase unicode_upper x.
Proof. reflexivity. Qed.

Lemma toUpperCase_ascii (s : jsstring) :
  Forall (fun c => c < 0x80) s ->
  toUpperCase unicode_upper s = map ascii_upper s.
Proof.
  induction 1 as [|c s Hc _ IH]; [reflexivity|].
  cbn [toUpperCase map].
  destruct (Z.ltb_spec c 0x80); [now rewrite IH | lia].
Qed.

Lemma cssToAssColor_native (rest : jsstring) :
  cssToAssColor (js "&H" ++ rest) = js "&H" ++ rest.
Proof. reflexivity. Qed.

Lemma cssToAssColor_starts_native (s : jsstring) :
  exists rest, cssToAssColor s = js "&H" ++ rest.
Proof.
  unfold cssToAssColor, Video.cssToAssColor.
  destruct (startsWith (js "&H") s) eqn:Hs.
  - change (js "&H") with [38; 72] in *.
    destruct s as [|a [|b rest]]; cbn [startsWith] in Hs;
      try discriminate; unfold unit_eqb in Hs.
    + rewrite andb_false_r in Hs. discriminate.
    + exists rest.
      apply andb_true_iff in Hs as [Ha Hb].
      apply andb_true_iff in Hb as [Hb _].
      apply Z.eqb_eq in Ha, Hb. subst. reflexivity.
  - rewrite toUpperCase_marker. eexists. reflexivity.
Qed.

(** C5. An input that starts with the native marker [&H] comes back
    unchanged; an input [#] followed by the units [r1 r2 g1 g2 b1 b2]
    gives [&H00] followed by the blue, green and red pairs, upper-cased
    (for the hex digits a-f: the capital letter); so [#FF00CC] gives
    [&H00CC00FF], and translating twice is translating once, for every
    string. *)
Theorem cssToAssColor_spec :
  (forall rest, cssToAssColor (js "&H" ++ rest) = js "&H" ++ rest)
  /\ (forall r1 r2 g1 g2 b1 b2,
        cssToAssColor (js "#" ++ [r1; r2; g1; g2; b1; b2])
        = js "&H00" ++ toUpperCase unicode_upper [b1; b2; g1; g2; r1; r2])
  /\ toUpperCase unicode_upper (js "0123456789abcdefABCDEF")
     = js "0123456789ABCDEFABCDEF"
  /\ cssToAssColor (js "#FF00CC") = js "&H00CC00FF"
  /\ cssToAssColor (js "#ff00cc") = js "&H00CC00FF"
  /\ cssToAssColor (js "&H00CC00FF") = js "&H00CC00FF"
  /\ (forall s, cssToAssColor (cssToAssColor s) = cssToAssColor s).
Proof.
  split_all; try reflexivity.
  intros s. destruct (cssToAssColor_starts_native s) as [rest ->].
  apply cssToAssColor_native.
Qed.
End Colour.

(* ----------------------------------------------------------------- *)
(** ** Frame geometry *)

Section Geometry.
Variable unicode_upper : Z -> jsstring.
Variable dirname : jsstring.
Variable now : Z.

Import Video.

(** C6. A request for "9:16" gets the frame 1080:1920 with margin 60,
    one for "16:9" the frame 1920:1080 with margin 40, and whatever
    the request, frame and margin are one of these two pairs, in the
    selection and in the command built from it: the first pair exactly
    when the aspect ratio is "9:16", the second otherwise. *)
Theorem aspect_geometry_pairing (r : request) :
  let size := videoSize (aspect r) in
  let margin := marginV (aspect r) in
  ((size, margin) = (js "1080:1920", 60) \/ (size, margin) = (js "1920:1080", 40))
  /\ command unicode_upper dirname now r
     = command_for unicode_upper dirname now r size margin
  /\ (videoSize (js "9:16"), marginV (js "9:16")) = (js "1080:1920", 60)
  /\ (videoSize (js "16:9"), marginV (js "16:9")) = (js "1920:1080", 40)
  /\ ((size, margin) = (js "1080:1920", 60) <-> aspect r = js "9:16")
  /\ ((size, margin) = (js "1920:1080", 40) <-> aspect r <> js "9:16").
Proof.
  intros size margin. subst size margin.
  assert (Hdiff : (js "1080:1920", 60) <> (js "1920:1080", 40))
    by (vm_compute; discriminate).
  split; [|split; [reflexivity|]]; unfold videoSize, marginV;
    destruct (str_eqb (aspect r) (js "9:16")) eqn:E.
  - left. reflexivity.
  - right. reflexivity.
  - apply str_eqb_eq in E. split_all; try reflexivity; tauto.
  - assert (Hne : aspect r <> js "9:16")
      by (intros Heq; rewrite Heq, str_eqb_refl in E; discriminate).
    split_all; try reflexivity; try tauto.
    split; [intros H; symmetry in H; now apply Hdiff in H | tauto].
Qed.
End Geometry.

(* ----------------------------------------------------------------- *)
(** ** Paths and the output file name *)

Lemma split_pieces (sep : code_unit) (s : jsstring) :
  Forall (fun piece => ~ In sep piece /\ (length piece <= length s)%nat) (split sep s).
Proof.
  induction s as [|c t IH]; cbn [split].
  - constructor; [|constructor]. split; [intros [] | reflexivity].
  - unfold unit_eqb. destruct (Z.eqb_spec c sep) as [->|Hne].
    + constructor.
      * split; [intros [] | cbn; lia].
      * eapply Forall_impl; [|exact IH]. cbn. intros piece [H1 H2]. split; [exact H1 | lia].
    + destruct (split sep t) as [|piece pieces].
      * constructor; [|constructor]. split; [|cbn; lia].
        intros [H|[]]. congruence.
      * inversion IH as [|? ? [H1 H2] Hrest]; subst. constructor.
        -- split; [|cbn; lia]. intros [H|H]; [congruence | contradiction].
        -- eapply Forall_impl; [|exact Hrest]. cbn. intros q [H3 H4]. split; [exact H3 | lia].
Qed.

Lemma last_Forall {A : Type} (P : A -> Prop) (l : list A) (d : A) :
  P d -> Forall P l -> P (last l d).
Proof.
  intros Hd Hl. induction Hl as [|x l Hx Hl IH]; [exact Hd|].
  destruct l; [exact Hx | exact IH].
Qed.

Lemma component_clean (p : jsstring) :
  ~ In Path.slash (Path.component p)
  /\ (length (Path.component p) <= length p)%nat.
Proof.
  unfold Path.component, Path.segments.
  apply (last_Forall (fun b => ~ In Path.slash b /\ (length b <= length p)%nat)).
  - split; [intros [] | cbn; lia].
  - apply Forall_forall. intros piece Hin. apply filter_In in Hin as [Hin _].
    pose proof (split_pieces Path.slash p) as H.
    rewrite Forall_forall in H. exact (H piece Hin).
Qed.

Lemma lastIndexOf_lt (c : code_unit) (s : jsstring) : forall k,
  Path.lastIndexOf c s = Some k -> (k < length s)%nat.
Proof.
  induction s as [|x t IH]; intros k; cbn [Path.lastIndexOf]; [discriminate|].
  destruct (Path.lastIndexOf c t) as [j|].
  - intros [= <-]. specialize (IH j eq_refl). cbn. lia.
  - destruct (unit_eqb x c); [|discriminate]. intros [= <-]. cbn. lia.
Qed.

Lemma startsWith_app (a b : jsstring) : startsWith a (a ++ b) = true.
Proof.
  induction a as [|x a IH]; [reflexivity|].
  cbn [app startsWith]. unfold unit_eqb. now rewrite Z.eqb_refl, IH.
Qed.

Lemma str_eqb_length (a b : jsstring) : length a <> length b -> str_eqb a b = false.
Proof.
  intros Hne. destruct (str_eqb a b) eqn:E; [|reflexivity].
  apply str_eqb_eq in E. congruence.
Qed.

(** Stripping the extension of a path from its base name leaves the
    rest of its last component. *)
Lemma basename_extname (p : jsstring) :
  Path.basename p (Path.extname p) ++ Path.extname p = Path.component p.
Proof.
  destruct (component_clean p) as [_ Hlen].
  unfold Path.basename, Path.extname.
  set (b := Path.component p) in *.
  destruct (Path.lastIndexOf Path.dot b) as [k|] eqn:Hk; [|cbn; apply app_nil_r].
  destruct ((k =? 0)%nat || str_eqb b [Path.dot; Path.dot]) eqn:Hskip;
    [cbn; apply app_nil_r|].
  apply orb_false_iff in Hskip as [Hk0 _]. apply Nat.eqb_neq in Hk0.
  apply lastIndexOf_lt in Hk.
  assert (Hext : length (skipn k b) = (length b - k)%nat) by apply length_skipn.
  assert (Htruthy : truthy (skipn k b) = true).
  { destruct (skipn k b); [cbn in Hext; lia | reflexivity]. }
  rewrite Htruthy. cbn [andb].
  replace (length (skipn k b) <=? length p)%nat with true
    by (symmetry; apply Nat.leb_le; lia).
  rewrite (str_eqb_length (skipn k b) p) by lia.
  rewrite (str_eqb_length (skipn k b) b) by lia.
  assert (Hends : Path.endsWith (skipn k b) b = true).
  { unfold Path.endsWith. rewrite <- (firstn_skipn k b) at 2.
    rewrite rev_app_distr. apply startsWith_app. }
  rewrite Hends. cbn [andb negb].
  replace (length b - length (skipn k b))%nat with k by lia.
  apply firstn_skipn.
Qed.

Lemma basename_no_slash (p suffix : jsstring) : ~ In Path.slash (Path.basename p suffix).
Proof.
  destruct (component_clean p) as [Hclean _].
  unfold Path.basename.
  destruct (truthy suffix && (length suffix <=? length p)%nat); [|exact Hclean].
  destruct (str_eqb suffix p); [intros []|].
  destruct (Path.endsWith suffix (Path.component p)
            && negb (str_eqb suffix (Path.component p))); [|exact Hclean].
  intros Hin. apply Hclean.
  rewrite <- (firstn_skipn (length (Path.component p) - length suffix) (Path.component p)).
  apply in_or_app. left. exact Hin.
Qed.

(** C9. The output file name is the branded prefix, then the base name,
    then [.mp4].  For a supplied (non-empty) upload name the base name
    is that name without its directories and without its extension: it
    holds no separator, and with the extension put back it is the last
    component of the upload name.  Without one (absent or empty) it is
    [video-] followed by the clock reading. *)
Theorem outputName_shape (now : Z) :
  (forall originalFilename,
     Video.outputName originalFilename now
     = js "pimsleur 日常英语对话-" ++ Video.baseName originalFilename now ++ js ".mp4")
  /\ (forall c name,
        let upload := c :: name in
        Video.baseName (Some upload) now = Path.basename upload (Path.extname upload)
        /\ ~ In Path.slash (Video.baseName (Some upload) now)
        /\ Video.baseName (Some upload) now ++ Path.extname upload
           = Path.component upload)
  /\ Video.baseName None now = js "video-" ++ Z_toString now
  /\ Video.baseName (Some []) now = js "video-" ++ Z_toString now
  /\ Video.outputName (Some (js "recordings/lesson 01.final.mp3")) now
     = js "pimsleur 日常英语对话-lesson 01.final.mp4"
  /\ Video.outputName None 1700000000000
     = js "pimsleur 日常英语对话-video-1700000000000.mp4".
Proof.
  split_all; try reflexivity.
  intros c name upload. split_all.
  - reflexivity.
  - apply basename_no_slash.
  - apply basename_extname.
Qed.

(* ----------------------------------------------------------------- *)
(** ** The request signer *)

Lemma hexdigit_isHexDigit (d : Z) : 0 <= d < 16 -> Signer.isHexDigit (Signer.hexdigit d) = true.
Proof.
  intros Hd. unfold Signer.isHexDigit, Signer.hexdigit.
  destruct (Z.ltb_spec d 10); apply orb_true_iff; [left | right];
    apply andb_true_iff; split; apply Z.leb_le; lia.
Qed.

Lemma toHex_length (bytes : list Z) : length (Signer.toHex bytes) = (2 * length bytes)%nat.
Proof.
  unfold Signer.toHex. induction bytes as [|b bytes IH]; [reflexivity|].
  cbn [flat_map app length]. rewrite IH. lia.
Qed.

Lemma toHex_isHexDigit (bytes : list Z) :
  Forall (fun b => 0 <= b < 256) bytes ->
  Forall (fun c => Signer.isHexDigit c = true) (Signer.toHex bytes).
Proof.
  unfold Signer.toHex. induction 1 as [|b bytes Hb _ IH]; [constructor|].
  cbn [flat_map app]. constructor; [|constructor; [|exact IH]];
    apply hexdigit_isHexDigit.
  - split; [apply Z.div_pos; lia | apply Z.div_lt_upper_bound; lia].
  - apply Z.mod_pos_bound. lia.
Qed.

Lemma randomBytes_range (source : nat -> Z) (n : nat) :
  length (Signer.randomBytes source n) = n
  /\ Forall (fun b => 0 <= b < 256) (Signer.randomBytes source n).
Proof.
  unfold Signer.randomBytes. split.
  - now rewrite length_map, length_seq.
  - apply Forall_forall. intros b Hb. apply in_map_iff in Hb as [i [<- _]].
    apply Z.mod_pos_bound. lia.
Qed.

Section SignerProperties.
Variable hmac_sha256_hex : jsstring -> jsstring -> jsstring.
Variable now : Z.
Variable source : nat -> Z.

(** C8. For every method, path, app id and secret, with the timestamp
    the clock reading in whole seconds and the nonce the hex text of
    16 random bytes (32 hex digits), the signature is the hex
    HMAC-SHA256 under the secret of method, path, timestamp, nonce and
    app id joined by newlines, and the four headers are the app id,
    the timestamp, the nonce, and that signature after the scheme
    name in [Authorization]. *)
Theorem generateAuthHeaders_spec (method apiPath appId appSecret : jsstring) :
  let timestamp := now / 1000 in
  let nonce := Signer.toHex (Signer.randomBytes source 16) in
  let signature :=
    hmac_sha256_hex appSecret
      (JS.join nl [method; apiPath; Z_toString timestamp; nonce; appId]) in
  Signer.generateAuthHeaders hmac_sha256_hex now source method apiPath appId appSecret
  = [ (js "X-App-Id", appId);
      (js "X-Timestamp", Z_toString timestamp);
      (js "X-Nonce", nonce);
      (js "Authorization", js "HMAC-SHA256 " ++ signature) ]
  /\ length nonce = 32%nat
  /\ Forall (fun c => Signer.isHexDigit c = true) nonce
  /\ timestamp * 1000 <= now < timestamp * 1000 + 1000.
Proof.
  intros timestamp nonce signature.
  destruct (randomBytes_range source 16) as [Hlen Hrange].
  split_all.
  - reflexivity.
  - subst nonce. rewrite toHex_length, Hlen. reflexivity.
  - subst nonce. now apply toHex_isHexDigit.
  - subst timestamp. pose proof (Z.div_mod now 1000 ltac:(lia)).
    pose proof (Z.mod_pos_bound now 1000 ltac:(lia)). lia.
  - subst timestamp. pose proof (Z.div_mod now 1000 ltac:(lia)).
    pose proof (Z.mod_pos_bound now 1000 ltac:(lia)). lia.
Qed.
End SignerProperties.

(* ----------------------------------------------------------------- *)
(** ** Alignment: validation and the uniform allocation *)

Import Float64 Route Align.

(** C7. When no line of the subtitle text has a non-empty trimmed form,
    the alignment answers with status 400 at once and does nothing
    else: the duration probe is not run and no file is written.  The
    message is that of the empty subtitle text, or that of the missing
    audio file when that check, which comes first, fails. *)
Theorem align_subtitle_no_lines (env : environment)
    (dirname audioPath subtitleText : jsstring) :
  Forall (fun line => trim line = []) (split 10 subtitleText) ->
  align_subtitle env dirname audioPath subtitleText
  = (Fail 400 (if existsSync env (Path.join [dirname; audioPath])
               then js "字幕文本为空" else js "音频文件不存在"),
     []).
Proof.
  intros Hblank. unfold align_subtitle.
  destruct (existsSync env (Path.join [dirname; audioPath])); [|reflexivity].
  cbn [negb].
  replace (nonEmptyLines subtitleText) with (@nil jsstring); [reflexivity|].
  symmetry. unfold nonEmptyLines.
  induction Hblank as [|line lines Hline _ IH]; [reflexivity|].
  cbn [filter]. rewrite Hline. exact IH.
Qed.

Lemma align_subtitle_no_lines_witness :
  let env := {| existsSync := fun _ => true;
                probe := fun _ => inr (of_Z 15);
                writeFileSync := fun _ _ => None |} in
  let blank := js "   " ++ nl ++ js " " ++ nl in
  align_subtitle env (js "/srv/app") (js "/uploads/1-talk.mp3") blank
  = (Fail 400 (js "字幕文本为空"), []).
Proof.
  apply (align_subtitle_no_lines
           {| existsSync := fun _ => true;
              probe := fun _ => inr (of_Z 15);
              writeFileSync := fun _ _ => None |}
           (js "/srv/app") (js "/uploads/1-talk.mp3")
           (js "   " ++ nl ++ js " " ++ nl)).
  repeat constructor.
Defined.

Lemma map_index_nth {A B : Type} (f : A -> nat -> B) (l : list A) : forall k i x,
  nth_error l i = Some x ->
  nth_error (map_index f k l) i = Some (f x (k + i)%nat).
Proof.
  induction l as [|a l IH]; intros k [|i] x; cbn [nth_error map_index];
    try discriminate.
  - intros [= ->]. now rewrite Nat.add_0_r.
  - intros H. rewrite (IH (S k) i x H). do 2 f_equal. lia.
Qed.

Lemma map_index_length {A B : Type} (f : A -> nat -> B) (l : list A) : forall k,
  length (map_index f k l) = length l.
Proof. induction l as [|a l IH]; intros k; cbn; [reflexivity | now rewrite IH]. Qed.

Lemma cues_abut (avg : float) (l : list jsstring) : forall k,
  map end_time (removelast (map_index (cue avg) k l))
  = map start_time (tl (map_index (cue avg) k l)).
Proof.
  induction l as [|x [|y t] IH]; intros k; try reflexivity.
  specialize (IH (S k)).
  cbn [map_index removelast tl map] in *.
  rewrite IH. f_equal.
  cbn [end_time start_time cue]. now rewrite Nat.add_1_r.
Qed.

Lemma floor_zero_times (avg : float) :
  floor (mul (of_nat 0) avg) = if is_finite avg then Int 0 else NaN.
Proof. destruct avg as [s|s| |s m e]; reflexivity. Qed.

(** C1, as the code has it.  With [n] lines and a total duration [D],
    the average [a = D / n] is taken once, in double precision, and
    line [i] (from 0) starts at [floor (i * a)] and ends at
    [floor ((i + 1) * a)], each product rounded to double precision.
    There are [n] cues, the first starts at 0 (for a finite average),
    every cue ends where the next one starts, and the last ends at
    [floor (n * a)]. *)
Theorem uniform_utterances_spec (lines : list jsstring) (durationMs : float)
    (i : nat) (line : jsstring) :
  nth_error lines i = Some line ->
  let n := length lines in
  let a := div durationMs (of_nat n) in
  let cues := uniform_utterances lines durationMs in
  nth_error cues i
    = Some {| start_time := floor (mul (of_nat i) a);
              end_time := floor (mul (of_nat (i + 1)) a);
              text := trim line |}
  /\ length cues = n
  /\ option_map start_time (nth_error cues 0)
     = Some (if is_finite a then Int 0 else NaN)
  /\ map end_time (removelast cues) = map start_time (tl cues)
  /\ option_map end_time (nth_error cues (n - 1)) = Some (floor (mul (of_nat n) a)).
Proof.
  intros Hline n a cues. subst cues. unfold uniform_utterances, avgDuration.
  fold n. fold a. split_all.
  - rewrite (map_index_nth _ _ 0 i line Hline). reflexivity.
  - apply map_index_length.
  - destruct lines as [|l0 rest]; [destruct i; discriminate|].
    cbn [map_index nth_error option_map start_time cue].
    now rewrite floor_zero_times.
  - apply cues_abut.
  - assert (Hn : (0 < n)%nat).
    { subst n. destruct lines; [destruct i; discriminate | cbn; lia]. }
    destruct (nth_error lines (n - 1)) as [x|] eqn:Hlast.
    + rewrite (map_index_nth _ _ 0 (n - 1) x Hlast).
      cbn [option_map end_time cue Nat.add].
      replace (n - 1 + 1)%nat with n by lia. reflexivity.
    + apply nth_error_None in Hlast. fold n in Hlast. lia.
Qed.

Lemma uniform_utterances_spec_witness :
  let lines := [js "Hello"; js "World"] in
  nth_error (uniform_utterances lines (of_Z 4000)) 1
  = Some {| start_time := Int 2000; end_time := Int 4000; text := js "World" |}.
Proof.
  exact (proj1 (uniform_utterances_spec [js "Hello"; js "World"] (of_Z 4000)
                  1 (js "World") eq_refl)).
Defined.

(** C1, as the specification words it, fails: 15 seconds over 7 lines.
    The average 15000 / 7 rounds down to 2142.857142857142662..., seven
    times that is below 15000 by less than the rounding of the product
    recovers, and the last cue ends at 14999, not at 15000. *)
Lemma uniform_utterances_last_end_short :
  let lines := map js ["a"; "b"; "c"; "d"; "e"; "f"; "g"]%string in
  let durationMs := mul (of_Z 15) (of_Z 1000) in
  durationMs = of_Z 15000
  /\ map (fun u => (start_time u, end_time u)) (uniform_utterances lines durationMs)
     <> spec_slices 7 15000
  /\ option_map end_time (nth_error (uniform_utterances lines durationMs) 6)
     = Some (Int 14999)
  /\ nth_error (map snd (spec_slices 7 15000)) 6 = Some (Int 15000).
Proof.
  intros lines durationMs. split_all; try (vm_compute; reflexivity).
  vm_compute. discriminate.
Qed.

(* ----------------------------------------------------------------- *)
(** ** Quoting in the composition command *)

(** The cover command escapes the double quotes of its prompt: a prompt
    with one leaves the command with its four delimiting quotes. *)
Example cover_command_escapes :
  unescaped_dquotes
    (Cover.command (js "A 5" ++ dquote ++ js " tape")
                   (js "/srv/app/outputs/images/cover-1700000000001"))
  = 4%nat.
Proof. vm_compute. reflexivity. Qed.

(** C2 does not hold of the code.  An upload name with a double quote
    in it (a 5-inch tape) and a font colour that ends in a single quote
    reach the command text as they are: the
    output path carries its double quote inside the double-quoted
    argument, the style carries its single quote inside the
    single-quoted [force_style], and the text holds no backslash at all;
    it has nine unescaped double quotes, where the four quoted
    arguments account for eight. *)
Theorem command_embeds_quotes_unescaped :
  let style := {| Video.fontSize := None;
                  Video.fontColor := Some (js "&H00FFFFFF'");
                  Video.outlineColor := None;
                  Video.outlineWidth := None |} in
  let r := {| Video.audioPath := js "/uploads/1700000000000-tape.mp3";
              Video.imagePath := js "/outputs/images/cover-1700000000001.jpg";
              Video.srtPath := Some (js "/outputs/1700000000000-tape.srt");
              Video.withSubtitles := true;
              Video.originalFilename := Some (js "5" ++ dquote ++ js " tape.mp3");
              Video.aspectRatio := None;
              Video.subtitleStyle := style |} in
  let cmd := Video.command (fun c => [c]) (js "/srv/app") 1700000000002 r in
  cmd
  = js "ffmpeg -loop 1 -i "
      ++ dquote ++ js "/srv/app/outputs/images/cover-1700000000001.jpg" ++ dquote
      ++ js " -i "
      ++ dquote ++ js "/srv/app/uploads/1700000000000-tape.mp3" ++ dquote
      ++ js " -vf "
      ++ dquote
      ++ js "scale=1080:1920:force_original_aspect_ratio=decrease,pad=1080:1920:(ow-iw)/2:(oh-ih)/2,subtitles='/srv/app/outputs/1700000000000-tape.srt':force_style='FontName=PingFang SC,FontSize=24,PrimaryColour=&H00FFFFFF',OutlineColour=&H00000000,Outline=2,Shadow=0,Alignment=2,MarginV=60'"
      ++ dquote
      ++ js " -c:v libx264 -tune stillimage -c:a aac -b:a 192k -pix_fmt yuv420p -shortest -y "
      ++ dquote ++ js "/srv/app/outputs/videos/pimsleur 日常英语对话-5"
      ++ dquote ++ js " tape.mp4" ++ dquote
  /\ existsb (unit_eqb 92) cmd = false
  /\ unescaped_dquotes cmd = 9%nat.
Proof.
  intros style r cmd. split_all; vm_compute; reflexivity.
Qed.

(* ----------------------------------------------------------------- *)
(** ** The alignment route, end to end *)

(** Two lines over a probed duration of 4 seconds: the probe runs, the
    subtitle file is written next to the other outputs, and its text is
    the two blocks of two seconds each. *)
Example align_hello_world :
  let env := {| existsSync := fun _ => true;
                probe := fun _ => inr (of_Z 4);
                writeFileSync := fun _ _ => None |} in
  let fullPath := js "/srv/app/uploads/17-talk.mp3" in
  align_subtitle env (js "/srv/app") (js "/uploads/17-talk.mp3")
                 (js "Hello" ++ nl ++ js "  " ++ nl ++ js "World" ++ nl)
  = (Ok {| srtPath := js "/outputs/17-talk-manual.srt";
           duration := of_Z 4000;
           lineCount := 2 |},
     [ Exec (probeCommand fullPath);
       WriteFile (js "/srv/app/outputs/17-talk-manual.srt")
         (js "1" ++ nl ++ js "00:00:00,000 --> 00:00:02,000" ++ nl
            ++ js "Hello" ++ nl ++ nl
            ++ js "2" ++ nl ++ js "00:00:02,000 --> 00:00:04,000" ++ nl
            ++ js "World" ++ nl ++ nl) ]).
Proof. vm_compute. reflexivity. Qed.

(* ================================================================= *)
(** * Further properties of the routes *)

(* ----------------------------------------------------------------- *)
(** ** What string operations keep *)

Section Keeps.
Variable P : code_unit -> Prop.

Lemma trimStart_keeps (s : jsstring) : Forall P s -> Forall P (trimStart s).
Proof.
  induction 1 as [|c s Hc Hs IH]; cbn [trimStart]; [constructor|].
  destruct (isWhiteSpace c); [exact IH | now constructor].
Qed.

Lemma trim_keeps (s : jsstring) : Forall P s -> Forall P (trim s).
Proof.
  intros Hs. unfold trim, trimEnd.
  apply Forall_rev, trimStart_keeps, Forall_rev, trimStart_keeps, Hs.
Qed.

Lemma split_keeps (sep : code_unit) (s : jsstring) :
  Forall P s -> Forall (Forall P) (split sep s).
Proof.
  induction 1 as [|c s Hc Hs IH]; cbn [split]; [repeat constructor|].
  destruct (unit_eqb c sep); [constructor; [constructor | exact IH]|].
  destruct (split sep s) as [|piece pieces]; [repeat constructor; exact Hc|].
  inversion IH; subst. constructor; [now constructor | assumption].
Qed.

Lemma join_keeps (sep : jsstring) (parts : list jsstring) :
  Forall P sep -> Forall (Forall P) parts -> Forall P (JS.join sep parts).
Proof.
  intros Hsep. induction 1 as [|p parts Hp Hparts IH]; cbn [JS.join]; [constructor|].
  destruct parts as [|q parts]; [exact Hp|].
  apply Forall_app. split; [exact Hp|]. apply Forall_app. split; [exact Hsep | exact IH].
Qed.

Lemma resolve_keeps (above : bool) (segs : list jsstring) : forall acc,
  Forall (Forall P) segs -> Forall (Forall P) acc ->
  Forall (Forall P) (Path.resolve above segs acc).
Proof.
  induction segs as [|s segs IH]; intros acc Hsegs Hacc; cbn [Path.resolve].
  - now apply Forall_rev.
  - inversion Hsegs as [|? ? Hs Hrest]; subst.
    destruct (str_eqb s [] || str_eqb s [Path.dot]); [now apply IH|].
    destruct (str_eqb s [Path.dot; Path.dot]).
    + destruct acc as [|prev acc'].
      * apply IH; [assumption|]. destruct above; repeat constructor; assumption.
      * inversion Hacc; subst.
        destruct (str_eqb prev [Path.dot; Path.dot]); apply IH; try assumption.
        constructor; assumption.
    + apply IH; [assumption | constructor; assumption].
Qed.

Hypothesis P_slash : P Path.slash.
Hypothesis P_dot : P Path.dot.

Lemma normalize_keeps (p : jsstring) : Forall P p -> Forall P (Path.normalize p).
Proof.
  intros Hp. unfold Path.normalize. destruct p as [|c p']; [repeat constructor; exact P_dot|].
  set (q := c :: p') in *.
  assert (Hr : Forall P (JS.join [Path.slash]
                 (Path.resolve (negb (unit_eqb c Path.slash)) (Path.segments q) []))).
  { apply join_keeps; [repeat constructor; exact P_slash|].
    apply resolve_keeps; [now apply split_keeps | constructor]. }
  destruct (JS.join [Path.slash] _) as [|x r].
  - destruct (unit_eqb c Path.slash); [repeat constructor; assumption|].
    destruct (Path.endsWithSlash q); repeat constructor; assumption.
  - apply Forall_app. split.
    + destruct (unit_eqb c Path.slash); repeat constructor; assumption.
    + apply Forall_app. split; [exact Hr|].
      destruct (Path.endsWithSlash q); repeat constructor; assumption.
Qed.

Lemma path_join_keeps (parts : list jsstring) :
  Forall (Forall P) parts -> Forall P (Path.join parts).
Proof.
  intros Hparts. unfold Path.join.
  assert (Hj : Forall P (JS.join [Path.slash] (filter truthy parts))).
  { apply join_keeps; [repeat constructor; exact P_slash|].
    apply Forall_forall. intros x Hx. apply filter_In in Hx as [Hx _].
    rewrite Forall_forall in Hparts. now apply Hparts. }
  destruct (JS.join [Path.slash] (filter truthy parts)) as [|x j] eqn:E.
  - repeat constructor. exact P_dot.
  - now apply normalize_keeps.
Qed.
End Keeps.

Lemma component_keeps (P : code_unit -> Prop) (p : jsstring) :
  Forall P p -> Forall P (Path.component p).
Proof.
  intros Hp. unfold Path.component, Path.segments.
  apply (last_Forall (Forall P)); [constructor|].
  apply Forall_forall. intros x Hx. apply filter_In in Hx as [Hx _].
  pose proof (split_keeps P Path.slash p Hp) as H.
  rewrite Forall_forall in H. now apply H.
Qed.

Lemma firstn_keeps {A : Type} (P : A -> Prop) (n : nat) (l : list A) :
  Forall P l -> Forall P (firstn n l).
Proof.
  intros Hl. rewrite <- (firstn_skipn n l) in Hl. now apply Forall_app in Hl.
Qed.

Lemma skipn_keeps {A : Type} (P : A -> Prop) (n : nat) (l : list A) :
  Forall P l -> Forall P (skipn n l).
Proof.
  intros Hl. rewrite <- (firstn_skipn n l) in Hl. now apply Forall_app in Hl.
Qed.

Lemma basename_keeps (P : code_unit -> Prop) (p suffix : jsstring) :
  Forall P p -> Forall P (Path.basename p suffix).
Proof.
  intros Hp. pose proof (component_keeps P p Hp) as Hc. unfold Path.basename.
  destruct (truthy suffix && (length suffix <=? length p)%nat); [|exact Hc].
  destruct (str_eqb suffix p); [constructor|].
  destruct (Path.endsWith suffix (Path.component p)
            && negb (str_eqb suffix (Path.component p))); [|exact Hc].
  now apply firstn_keeps.
Qed.

Lemma isDigit_range (c : code_unit) : isDigit c = true <-> 48 <= c <= 57.
Proof. unfold isDigit. rewrite andb_true_iff, !Z.leb_le. tauto. Qed.

Lemma Z_toString_units (z : Z) :
  Forall (fun c => c = 45 \/ isDigit c = true) (Z_toString z).
Proof.
  unfold Z_toString.
  assert (H : forall n, Forall (fun c => c = 45 \/ isDigit c = true) (decimal n)).
  { intros n. eapply Forall_impl; [|apply decimal_isDigit]. cbn. auto. }
  destruct (z <? 0); [constructor; [now left | apply H] | apply H].
Qed.

(* ----------------------------------------------------------------- *)
(** ** Quoting of the command texts *)

Lemma quote_freeb_spec (s : jsstring) : quote_freeb s = true -> quote_free s.
Proof.
  unfold quote_freeb, quote_free. rewrite forallb_forall, Forall_forall.
  intros H c Hc. specialize (H c Hc).
  apply andb_true_iff in H as [H1 H2].
  apply negb_true_iff in H1, H2. apply Z.eqb_neq in H1, H2. now split.
Qed.

Lemma quote_free_app (a b : jsstring) :
  quote_free a -> quote_free b -> quote_free (a ++ b).
Proof. intros Ha Hb. apply Forall_app. now split. Qed.

Lemma quote_free_Z_toString (z : Z) : quote_free (Z_toString z).
Proof.
  eapply Forall_impl; [|apply Z_toString_units]. cbn.
  intros c [->|Hc]; [split; discriminate|].
  apply isDigit_range in Hc. split; lia.
Qed.

Lemma quote_free_path_join (parts : list jsstring) :
  Forall quote_free parts -> quote_free (Path.join parts).
Proof. apply path_join_keeps; split; discriminate. Qed.

Lemma quote_free_or_default (field : option jsstring) (dflt : jsstring) :
  field_quote_free field -> quote_free dflt -> quote_free (or_default field dflt).
Proof.
  intros Hf Hd. unfold or_default. destruct field as [s|]; [|exact Hd].
  destruct (truthy s); assumption.
Qed.

Lemma unescaped_skip (a b : jsstring) :
  quote_free a -> unescaped_dquotes (a ++ b) = unescaped_dquotes b.
Proof.
  induction 1 as [|c a [H34 H92] _ IH]; [reflexivity|].
  cbn [app unescaped_dquotes]. unfold unit_eqb.
  destruct (Z.eqb_spec c 92); [contradiction|].
  destruct (Z.eqb_spec c 34); [contradiction | exact IH].
Qed.

Lemma unescaped_dquote (b : jsstring) :
  unescaped_dquotes (dquote ++ b) = S (unescaped_dquotes b).
Proof. reflexivity. Qed.

Lemma unescaped_clean (a : jsstring) : quote_free a -> unescaped_dquotes a = 0%nat.
Proof. intros Ha. rewrite <- (app_nil_r a). now rewrite unescaped_skip. Qed.

Ltac literal := apply quote_freeb_spec; vm_compute; reflexivity.

Ltac quote_free_parts :=
  repeat match goal with
         | |- quote_free (_ ++ _) => apply quote_free_app
         | |- quote_free (js _) => literal
         | |- quote_free (Z_toString _) => apply quote_free_Z_toString
         | H : quote_free ?x |- quote_free ?x => exact H
         end.

Lemma remove_first_keeps (P : code_unit -> Prop) (c : code_unit) (s : jsstring) :
  Forall P s -> Forall P (remove_first c s).
Proof.
  induction 1 as [|x s Hx Hs IH]; cbn [remove_first]; [constructor|].
  destruct (unit_eqb x c); [exact Hs | now constructor].
Qed.

Lemma substring_keeps (P : code_unit -> Prop) (i j : nat) (s : jsstring) :
  Forall P s -> Forall P (substring i j s).
Proof. intros Hs. unfold substring. now apply firstn_keeps, skipn_keeps. Qed.

Lemma ascii_upper_quote_free (c : code_unit) :
  c <> 34 /\ c <> 92 -> ascii_upper c <> 34 /\ ascii_upper c <> 92.
Proof.
  intros [H1 H2]. unfold ascii_upper.
  destruct ((97 <=? c) && (c <=? 122)) eqn:E; [|now split].
  apply andb_true_iff in E as [Ha Hb]. apply Z.leb_le in Ha, Hb. split; lia.
Qed.

Section Quoting.
Variable unicode_upper : Z -> jsstring.
Hypothesis upper_quote_free : forall cp, 0x80 <= cp -> quote_free (unicode_upper cp).

Lemma toUpperCase_quote_free_upto (n : nat) : forall s,
  (length s <= n)%nat -> quote_free s -> quote_free (toUpperCase unicode_upper s).
Proof.
  induction n as [|n IH]; intros s Hlen Hs.
  - destruct s; [constructor | cbn in Hlen; lia].
  - destruct s as [|c t]; [constructor|].
    inversion Hs as [|? ? Hc Ht]; subst. cbn [length] in Hlen.
    cbn [toUpperCase]. destruct (Z.ltb_spec c 0x80) as [Hlow|Hhigh].
    + constructor; [now apply ascii_upper_quote_free | apply IH; [lia | exact Ht]].
    + destruct t as [|d t'].
      * apply upper_quote_free. exact Hhigh.
      * inversion Ht as [|? ? Hd Ht']; subst. cbn [length] in Hlen.
        destruct (isHighSurrogate c && isLowSurrogate d) eqn:Hpair.
        -- apply quote_free_app; [|apply IH; [lia | exact Ht']].
           apply upper_quote_free. unfold pair_code_point.
           apply andb_true_iff in Hpair as [Hhi Hlo].
           unfold isHighSurrogate in Hhi. unfold isLowSurrogate in Hlo.
           apply andb_true_iff in Hhi as [Hhi _]. apply andb_true_iff in Hlo as [Hlo _].
           apply Z.leb_le in Hhi, Hlo. lia.
        -- apply quote_free_app; [now apply upper_quote_free|].
           apply IH; [cbn [length]; lia | exact Ht].
Qed.

Lemma toUpperCase_quote_free (s : jsstring) :
  quote_free s -> quote_free (toUpperCase unicode_upper s).
Proof. apply (toUpperCase_quote_free_upto (length s)). reflexivity. Qed.

Lemma cssToAssColor_quote_free (s : jsstring) :
  quote_free s -> quote_free (Video.cssToAssColor unicode_upper s).
Proof.
  intros Hs. unfold Video.cssToAssColor.
  destruct (startsWith (js "&H") s); [exact Hs|].
  apply toUpperCase_quote_free. quote_free_parts;
    apply substring_keeps, remove_first_keeps, Hs.
Qed.

Lemma styleStr_quote_free (style : Video.subtitle_style) (margin : Z) :
  field_quote_free (Video.fontSize style) ->
  field_quote_free (Video.fontColor style) ->
  field_quote_free (Video.outlineColor style) ->
  field_quote_free (Video.outlineWidth style) ->
  quote_free (Video.styleStr unicode_upper style margin).
Proof.
  intros H1 H2 H3 H4. unfold Video.styleStr. quote_free_parts;
    try apply cssToAssColor_quote_free;
    apply quote_free_or_default; try assumption; literal.
Qed.

Variable dirname : jsstring.
Variable now : Z.
Hypothesis dirname_quote_free : quote_free dirname.

Lemma outputPath_quote_free (r : Video.request) :
  field_quote_free (Video.originalFilename r) ->
  quote_free (Video.outputPath dirname now r).
Proof.
  intros Hname. unfold Video.outputPath.
  apply quote_free_path_join.
  constructor; [exact dirname_quote_free|].
  constructor; [literal|]. constructor; [literal|]. constructor; [|constructor].
  unfold Video.outputName. quote_free_parts.
  unfold Video.baseName. destruct (Video.originalFilename r) as [f|].
  - destruct (truthy f); [now apply basename_keeps | quote_free_parts].
  - quote_free_parts.
Qed.

(** X1. When neither the directory of the server nor any string of the
    request holds a double quote or a backslash, the composition
    command has exactly eight unescaped double quotes, the four pairs
    around the image, the audio, the filter graph and the output path,
    and so is quoted as written, with subtitles or without. *)
Theorem command_quotes_balanced (r : Video.request) :
  request_quote_free r ->
  unescaped_dquotes (Video.command unicode_upper dirname now r) = 8%nat.
Proof.
  intros (Haudio & Himage & Hsrt & Hname & Hsize & Hcolor & Houtline & Hwidth).
  pose proof (outputPath_quote_free r Hname) as Hout.
  assert (Haud : quote_free (Path.join [dirname; Video.audioPath r]))
    by (apply quote_free_path_join; constructor; [|constructor; [|constructor]];
        assumption).
  assert (Himg : quote_free (Path.join [dirname; Video.imagePath r]))
    by (apply quote_free_path_join; constructor; [|constructor; [|constructor]];
        assumption).
  assert (Hvs : quote_free (Video.videoSize (Video.aspect r)))
    by (unfold Video.videoSize;
        destruct (str_eqb (Video.aspect r) (js "9:16")); literal).
  unfold Video.command, Video.command_for.
  destruct (if Video.withSubtitles r then supplied (Video.srtPath r) else None)
    as [srt|] eqn:Hsub.
  - assert (Hs : quote_free (Path.join [dirname; srt])).
    { apply quote_free_path_join.
      constructor; [assumption|]. constructor; [|constructor].
      destruct (Video.withSubtitles r); [|discriminate].
      unfold supplied in Hsub. destruct (Video.srtPath r) as [s|]; [|discriminate].
      destruct (truthy s); [|discriminate]. injection Hsub as <-. exact Hsrt. }
    pose proof (styleStr_quote_free (Video.subtitleStyle r)
                  (Video.marginV (Video.aspect r)) Hsize Hcolor Houtline Hwidth) as Hst.
    unfold Video.command_with_subtitles, Video.encoding.
    repeat (first [ rewrite unescaped_dquote
                  | rewrite unescaped_skip by quote_free_parts ]).
    reflexivity.
  - unfold Video.command_without_subtitles, Video.encoding.
    repeat (first [ rewrite unescaped_dquote
                  | rewrite unescaped_skip by quote_free_parts ]).
    reflexivity.
Qed.
End Quoting.

Lemma command_quotes_balanced_witness :
  let r := {| Video.audioPath := js "/uploads/1700000000000-tape.mp3";
              Video.imagePath := js "/outputs/images/cover-1700000000001.jpg";
              Video.srtPath := Some (js "/outputs/1700000000000-tape.srt");
              Video.withSubtitles := true;
              Video.originalFilename := Some (js "tape.mp3");
              Video.aspectRatio := Some (js "16:9");
              Video.subtitleStyle :=
                {| Video.fontSize := Some (js "28");
                   Video.fontColor := Some (js "#ffcc00");
                   Video.outlineColor := None;
                   Video.outlineWidth := None |} |} in
  unescaped_dquotes (Video.command (fun cp => [cp]) (js "/srv/app") 1700000000002 r)
  = 8%nat.
Proof.
  intros r.
  apply (command_quotes_balanced (fun cp => [cp])).
  - intros cp Hcp. constructor; [split; lia | constructor].
  - literal.
  - unfold request_quote_free, field_quote_free; cbn. split_all; try exact I; literal.
Defined.

Lemma replace_all_app (c : code_unit) (by_ a b : jsstring) :
  replace_all c by_ (a ++ b) = replace_all c by_ a ++ replace_all c by_ b.
Proof.
  induction a as [|x a IH]; [reflexivity|].
  cbn [app replace_all]. now rewrite IH, app_assoc.
Qed.

(** Past an escaped prompt without backslashes the count goes on as if
    it were not there. *)
Lemma unescaped_escaped_prompt (p rest : jsstring) :
  backslash_free p ->
  unescaped_dquotes (replace_all 34 (backslash ++ dquote) p ++ rest)
  = unescaped_dquotes rest.
Proof.
  induction 1 as [|c p Hc _ IH]; [reflexivity|].
  cbn [replace_all]. unfold unit_eqb at 1.
  destruct (Z.eqb_spec c 34) as [->|Hq].
  - rewrite <- app_assoc. exact IH.
  - rewrite <- app_assoc. cbn [app unescaped_dquotes]. unfold unit_eqb.
    destruct (Z.eqb_spec c 92); [contradiction|].
    destruct (Z.eqb_spec c 34); [contradiction | exact IH].
Qed.

Lemma cover_command_quotes (prompt output : jsstring) :
  backslash_free prompt -> quote_free output ->
  unescaped_dquotes (Cover.command prompt output) = 4%nat.
Proof.
  intros Hp Ho. unfold Cover.command.
  rewrite unescaped_skip by literal. rewrite unescaped_dquote.
  rewrite unescaped_escaped_prompt by exact Hp.
  rewrite unescaped_dquote. rewrite unescaped_skip by literal.
  rewrite unescaped_dquote. rewrite unescaped_skip by exact Ho.
  reflexivity.
Qed.

Lemma backslash_freeb_spec (s : jsstring) :
  forallb (fun c => negb (c =? 92)) s = true -> backslash_free s.
Proof.
  unfold backslash_free. rewrite forallb_forall, Forall_forall.
  intros H c Hc. specialize (H c Hc). apply negb_true_iff, Z.eqb_neq in H. exact H.
Qed.

Ltac no_backslash := apply backslash_freeb_spec; vm_compute; reflexivity.

Lemma prompt_backslash_free (title : jsstring) (customPrompt : option jsstring)
    (aspectRatio : jsstring) :
  backslash_free title ->
  match customPrompt with Some p => backslash_free p | None => True end ->
  backslash_free (Cover.prompt title customPrompt aspectRatio).
Proof.
  intros Ht Hc. unfold Cover.prompt.
  assert (Htemplate : forall a b c d, backslash_free a -> backslash_free b ->
            backslash_free c -> backslash_free d ->
            backslash_free (a ++ b ++ c ++ title ++ d)).
  { intros a b c d Ha Hb Hc' Hd. unfold backslash_free.
    repeat (apply Forall_app; split); assumption. }
  assert (Hdesc : backslash_free (Cover.orientationDesc aspectRatio))
    by (unfold Cover.orientationDesc;
        destruct (str_eqb aspectRatio (js "9:16")); no_backslash).
  unfold or_default. destruct customPrompt as [p|].
  - destruct (truthy p); [exact Hc|]. apply Htemplate; try no_backslash. exact Hdesc.
  - apply Htemplate; try no_backslash. exact Hdesc.
Qed.

Lemma cover_output_quote_free (dirname : jsstring) (now : Z) :
  quote_free dirname ->
  quote_free (Path.join [Path.join [dirname; js "outputs"; js "images"];
                         js "cover-" ++ Z_toString now]).
Proof.
  intros Hd. apply quote_free_path_join.
  constructor; [|constructor; [quote_free_parts | constructor]].
  apply quote_free_path_join.
  constructor; [exact Hd|]. constructor; [literal|]. constructor; [literal | constructor].
Qed.

(** X2. The cover route runs one command, and when the title and the
    custom prompt hold no backslash and the server directory holds
    neither quote nor backslash, that command has exactly four
    unescaped double quotes, those around the prompt and the output
    path, however many double quotes the prompt itself holds. *)
Theorem generate_cover_prompt_escaped (env : CoverRoute.environment)
    (dirname : jsstring) (now : Z) (title customPrompt aspectRatio : option jsstring) :
  quote_free dirname ->
  backslash_free (CoverRoute.interpolate title) ->
  match customPrompt with Some p => backslash_free p | None => True end ->
  exists command,
    snd (CoverRoute.generate_cover env dirname now title customPrompt aspectRatio)
    = [Exec command]
    /\ unescaped_dquotes command = 4%nat.
Proof.
  intros Hd Ht Hc.
  eexists. split.
  - unfold CoverRoute.generate_cover.
    destruct (CoverRoute.execSync env _); [reflexivity|].
    destruct (CoverRoute.readdirSync env _) as [m|files]; [reflexivity|].
    destruct (find _ files); reflexivity.
  - apply cover_command_quotes.
    + now apply prompt_backslash_free.
    + now apply cover_output_quote_free.
Qed.

Lemma generate_cover_prompt_escaped_witness :
  let env := {| CoverRoute.execSync := fun _ => None;
                CoverRoute.readdirSync := fun _ => inr [js "cover-1700000000001.png"] |} in
  exists command,
    snd (CoverRoute.generate_cover env (js "/srv/app") 1700000000001
           (Some (js "A 5" ++ dquote ++ js " tape")) None None)
    = [Exec command]
    /\ unescaped_dquotes command = 4%nat.
Proof.
  intros env.
  apply (generate_cover_prompt_escaped env (js "/srv/app") 1700000000001
           (Some (js "A 5" ++ dquote ++ js " tape")) None None).
  - literal.
  - no_backslash.
  - exact I.
Defined.

(** X3. The escaping of the prompt stops at double quotes: a prompt
    that ends in a backslash, with none before it, leaves the cover
    command with three unescaped double quotes, the backslash having
    taken the quote meant to close the prompt. *)
Theorem cover_command_trailing_backslash (prompt output : jsstring) :
  backslash_free prompt -> quote_free output ->
  unescaped_dquotes (Cover.command (prompt ++ backslash) output) = 3%nat.
Proof.
  intros Hp Ho. unfold Cover.command.
  rewrite unescaped_skip by literal. rewrite unescaped_dquote.
  rewrite replace_all_app, <- app_assoc.
  rewrite unescaped_escaped_prompt by exact Hp.
  change (replace_all 34 (backslash ++ dquote) backslash) with backslash.
  change (unescaped_dquotes (backslash ++ dquote ++ js " --output " ++ dquote ++ output ++ dquote))
    with (unescaped_dquotes (js " --output " ++ dquote ++ output ++ dquote)).
  rewrite unescaped_skip by literal.
  rewrite unescaped_dquote. rewrite unescaped_skip by exact Ho.
  reflexivity.
Qed.

Lemma cover_command_trailing_backslash_witness :
  unescaped_dquotes
    (Cover.command (js "A tape" ++ backslash) (js "/srv/app/outputs/images/cover-1"))
  = 3%nat.
Proof.
  apply (cover_command_trailing_backslash (js "A tape") (js "/srv/app/outputs/images/cover-1")).
  - no_backslash.
  - literal.
Defined.

(** X4. When neither the server directory nor the audio path holds a
    double quote or a backslash, the duration probe command has exactly
    two unescaped double quotes, the pair around the audio file. *)
Theorem probeCommand_quotes_balanced (dirname audioPath : jsstring) :
  quote_free dirname -> quote_free audioPath ->
  unescaped_dquotes (probeCommand (Path.join [dirname; audioPath])) = 2%nat.
Proof.
  intros Hd Ha. unfold probeCommand.
  rewrite unescaped_skip by literal. rewrite unescaped_dquote.
  rewrite unescaped_skip; [reflexivity|].
  apply quote_free_path_join. constructor; [exact Hd|]. constructor; [exact Ha | constructor].
Qed.

Lemma probeCommand_quotes_balanced_witness :
  unescaped_dquotes
    (probeCommand (Path.join [js "/srv/app"; js "/uploads/1700000000000-tape.mp3"]))
  = 2%nat.
Proof.
  apply (probeCommand_quotes_balanced (js "/srv/app") (js "/uploads/1700000000000-tape.mp3"));
    literal.
Defined.

(* ----------------------------------------------------------------- *)
(** ** Trimming *)

Lemma trimStart_starts_clean (s : jsstring) : starts_clean (trimStart s).
Proof.
  induction s as [|c s IH]; [exact I|].
  cbn [trimStart]. destruct (isWhiteSpace c) eqn:E; [exact IH | exact E].
Qed.

Lemma trimStart_fixed (s : jsstring) : starts_clean s -> trimStart s = s.
Proof. destruct s as [|c s]; [reflexivity|]. cbn. now intros ->. Qed.

Lemma trimStart_suffix (s : jsstring) : exists p, s = p ++ trimStart s.
Proof.
  induction s as [|c s [p IH]]; [now exists []|].
  cbn [trimStart]. destruct (isWhiteSpace c).
  - exists (c :: p). cbn. now rewrite <- IH.
  - now exists [].
Qed.

Lemma trim_starts_clean (s : jsstring) : starts_clean (trim s).
Proof.
  unfold trim, trimEnd.
  pose proof (trimStart_starts_clean s) as Hhead.
  destruct (trimStart_suffix (rev (trimStart s))) as [p Hp].
  apply (f_equal (@rev code_unit)) in Hp.
  rewrite rev_involutive, rev_app_distr in Hp.
  destruct (rev (trimStart (rev (trimStart s)))) as [|c u]; [exact I|].
  rewrite Hp in Hhead. exact Hhead.
Qed.

Lemma trim_idempotent (s : jsstring) : trim (trim s) = trim s.
Proof.
  pose proof (trim_starts_clean s) as Hhead.
  unfold trim at 1. rewrite (trimStart_fixed _ Hhead).
  unfold trim, trimEnd. rewrite rev_involutive.
  rewrite (trimStart_fixed _ (trimStart_starts_clean _)). reflexivity.
Qed.

(* ----------------------------------------------------------------- *)
(** ** The upload title *)

Lemma dropDigits_keeps (P : code_unit -> Prop) (s : jsstring) :
  Forall P s -> Forall P (Upload.dropDigits s).
Proof.
  induction 1 as [|c s Hc Hs IH]; cbn [Upload.dropDigits]; [constructor|].
  destruct (isDigit c); [exact IH | now constructor].
Qed.

Lemma stripNumericPrefix_keeps (P : code_unit -> Prop) (s : jsstring) :
  Forall P s -> Forall P (Upload.stripNumericPrefix s).
Proof.
  intros Hs. unfold Upload.stripNumericPrefix. destruct s as [|c t]; [constructor|].
  destruct (isDigit c); [|exact Hs].
  inversion Hs as [|? ? _ Ht]; subst.
  pose proof (dropDigits_keeps P t Ht) as Hd.
  destruct (Upload.dropDigits t) as [|d t']; [constructor|].
  destruct (Upload.isDashOrUnderscore d); [now inversion Hd | exact Hd].
Qed.

Lemma spaceOut_units (s : jsstring) :
  Forall (fun c => c <> 47) s ->
  Forall (fun c => c <> 45 /\ c <> 95 /\ c <> 47) (Upload.spaceOut s).
Proof.
  unfold Upload.spaceOut. induction 1 as [|c s Hc _ IH]; [constructor|].
  cbn [map]. constructor; [|exact IH].
  unfold Upload.isDashOrUnderscore.
  destruct (Z.eqb_spec c 45); [cbn; repeat split; discriminate|].
  destruct (Z.eqb_spec c 95); cbn; repeat split; try discriminate; assumption.
Qed.

(** X5. The title made of an upload name holds no dash, no underscore
    and no slash, and no white space at either end: trimming it again
    changes nothing. *)
Theorem title_clean (originalname : jsstring) :
  let t := Upload.title originalname in
  Forall (fun c => c <> 45 /\ c <> 95 /\ c <> 47) t /\ trim t = t.
Proof.
  intros t. subst t. unfold Upload.title. split; [|apply trim_idempotent].
  apply trim_keeps, spaceOut_units, stripNumericPrefix_keeps.
  apply Forall_forall. intros c Hc Heq. subst c.
  exact (basename_no_slash originalname (Path.extname originalname) Hc).
Qed.

(* ----------------------------------------------------------------- *)
(** ** The cover route: which file it reports *)

Lemma find_first {A : Type} (f : A -> bool) (l : list A) (x : A) :
  find f l = Some x ->
  exists before after,
    l = before ++ x :: after /\ f x = true /\ Forall (fun y => f y = false) before.
Proof.
  induction l as [|a l IH]; cbn [find]; [discriminate|].
  destruct (f a) eqn:Ha.
  - intros [= <-]. exists [], l. repeat split; [exact Ha | constructor].
  - intros Hx. destruct (IH Hx) as (before & after & -> & Hfx & Hbefore).
    exists (a :: before), after. repeat split; [exact Hfx | now constructor].
Qed.

(** X6. When the cover route answers with success, the file it reports
    is an entry of the image directory whose name starts with [cover-]
    and the clock reading, the first such entry of the listing; its
    public path is [/outputs/images/] followed by that name. *)
Theorem generate_cover_reports_first_match (env : CoverRoute.environment)
    (dirname : jsstring) (now : Z) (title customPrompt aspectRatio : option jsstring)
    (g : CoverRoute.generated) :
  fst (CoverRoute.generate_cover env dirname now title customPrompt aspectRatio) = Ok g ->
  let outputDir := Path.join [dirname; js "outputs"; js "images"] in
  let outputName := js "cover-" ++ Z_toString now in
  exists before file after,
    CoverRoute.readdirSync env outputDir = inr (before ++ file :: after)
    /\ startsWith outputName file = true
    /\ Forall (fun other => startsWith outputName other = false) before
    /\ CoverRoute.imagePath g = js "/outputs/images/" ++ file
    /\ CoverRoute.fullPath g = Path.join [outputDir; file].
Proof.
  intros Hok outputDir outputName. unfold CoverRoute.generate_cover in Hok.
  fold outputDir outputName in Hok.
  destruct (CoverRoute.execSync env _); [discriminate|].
  destruct (CoverRoute.readdirSync env outputDir) as [m|files]; [discriminate|].
  destruct (find (startsWith outputName) files) as [file|] eqn:Hfind; [|discriminate].
  cbn [fst] in Hok. injection Hok as <-.
  destruct (find_first _ _ _ Hfind) as (before & after & -> & Hpre & Hbefore).
  exists before, file, after. repeat split; assumption.
Qed.

Lemma generate_cover_reports_first_match_witness :
  let env := {| CoverRoute.execSync := fun _ => None;
                CoverRoute.readdirSync := fun _ =>
                  inr [js "cover-1699999999999.png"; js "cover-1700000000001.png";
                       js "cover-1700000000001.webp"] |} in
  exists before file after,
    CoverRoute.readdirSync env (Path.join [js "/srv/app"; js "outputs"; js "images"])
    = inr (before ++ file :: after)
    /\ startsWith (js "cover-" ++ Z_toString 1700000000001) file = true
    /\ Forall (fun other => startsWith (js "cover-" ++ Z_toString 1700000000001) other = false)
              before
    /\ CoverRoute.imagePath
         {| CoverRoute.imagePath := js "/outputs/images/cover-1700000000001.png";
            CoverRoute.fullPath := js "/srv/app/outputs/images/cover-1700000000001.png" |}
       = js "/outputs/images/" ++ file
    /\ CoverRoute.fullPath
         {| CoverRoute.imagePath := js "/outputs/images/cover-1700000000001.png";
            CoverRoute.fullPath := js "/srv/app/outputs/images/cover-1700000000001.png" |}
       = Path.join [Path.join [js "/srv/app"; js "outputs"; js "images"]; file].
Proof.
  intros env.
  exact (generate_cover_reports_first_match env (js "/srv/app") 1700000000001
           (Some (js "Tea time")) None None
           {| CoverRoute.imagePath := js "/outputs/images/cover-1700000000001.png";
              CoverRoute.fullPath := js "/srv/app/outputs/images/cover-1700000000001.png" |}
           eq_refl).
Defined.

(** X7. When the generator ran without error and no entry of the image
    directory starts with [cover-] and the clock reading, the cover
    route answers 500 with its own message, the command having run. *)
Theorem generate_cover_missing_artifact (env : CoverRoute.environment)
    (dirname : jsstring) (now : Z) (title customPrompt aspectRatio : option jsstring)
    (files : list jsstring) :
  (forall command, CoverRoute.execSync env command = None) ->
  CoverRoute.readdirSync env (Path.join [dirname; js "outputs"; js "images"]) = inr files ->
  Forall (fun name => startsWith (js "cover-" ++ Z_toString now) name = false) files ->
  exists command,
    CoverRoute.generate_cover env dirname now title customPrompt aspectRatio
    = (Fail 500 (js "图片生成失败"), [Exec command]).
Proof.
  intros Hexec Hdir Hnone. unfold CoverRoute.generate_cover.
  rewrite Hexec, Hdir.
  replace (find (startsWith (js "cover-" ++ Z_toString now)) files) with (@None jsstring).
  - eexists. reflexivity.
  - symmetry. clear Hdir. induction Hnone as [|name files Hname _ IH]; [reflexivity|].
    cbn [find]. now rewrite Hname.
Qed.

Lemma generate_cover_missing_artifact_witness :
  let env := {| CoverRoute.execSync := fun _ => None;
                CoverRoute.readdirSync := fun _ => inr [js "cover-1699999999999.png"] |} in
  exists command,
    CoverRoute.generate_cover env (js "/srv/app") 1700000000001
      (Some (js "Tea time")) None (Some (js "16:9"))
    = (Fail 500 (js "图片生成失败"), [Exec command]).
Proof.
  intros env.
  apply (generate_cover_missing_artifact env (js "/srv/app") 1700000000001
           (Some (js "Tea time")) None (Some (js "16:9")) [js "cover-1699999999999.png"]).
  - reflexivity.
  - reflexivity.
  - repeat constructor.
Defined.

(* ----------------------------------------------------------------- *)
(** ** Credentials *)

Lemma split_app_sep (sep : code_unit) (a b : jsstring) :
  split sep (a ++ sep :: b) = split sep a ++ split sep b.
Proof.
  induction a as [|c a IH]; cbn [app split].
  - unfold unit_eqb. now rewrite Z.eqb_refl.
  - rewrite IH. destruct (unit_eqb c sep); [reflexivity|].
    destruct (split sep a) as [|piece pieces] eqn:E; [|reflexivity].
    destruct a; cbn [split] in E; [discriminate|].
    destruct (unit_eqb c0 sep); [discriminate|].
    destruct (split sep a); discriminate.
Qed.

Lemma split_no_sep (sep : code_unit) (s : jsstring) :
  ~ In sep s -> split sep s = [s].
Proof.
  induction s as [|c s IH]; intros Hno; [reflexivity|].
  cbn [split]. unfold unit_eqb. destruct (Z.eqb_spec c sep) as [->|Hne].
  - exfalso. apply Hno. now left.
  - rewrite IH; [reflexivity|]. intros Hin. apply Hno. now right.
Qed.

Lemma parse_snoc (text line : jsstring) :
  ~ In 10 line ->
  Credentials.parse (text ++ nl ++ line)
  = Credentials.parse_line (Credentials.parse text) line.
Proof.
  intros Hline. unfold Credentials.parse, nl.
  change (text ++ [10] ++ line) with (text ++ 10 :: line).
  rewrite split_app_sep, fold_left_app, (split_no_sep 10 line Hline). reflexivity.
Qed.

Lemma get_assign (k k' v : jsstring) (o : Credentials.object) :
  Credentials.get k (Credentials.assign k' v o)
  = if str_eqb k' (js "__proto__") then Credentials.get k o
    else if str_eqb k k' then Some v else Credentials.get k o.
Proof.
  unfold Credentials.assign. destruct (str_eqb k' (js "__proto__")); reflexivity.
Qed.

(** X8. In the credentials text the last line decides: after any text,
    a closing line [key=value], with both parts non-empty and free of
    [=] and of line breaks and the trimmed key other than [__proto__],
    makes the trimmed key read as the trimmed value. *)
Theorem parse_last_line_wins (text key value : jsstring) :
  key <> [] -> value <> [] ->
  ~ In 61 key -> ~ In 61 value -> ~ In 10 key -> ~ In 10 value ->
  trim key <> js "__proto__" ->
  Credentials.get (trim key) (Credentials.parse (text ++ nl ++ key ++ js "=" ++ value))
  = Some (trim value).
Proof.
  intros Hk Hv Hk61 Hv61 Hk10 Hv10 Hproto.
  rewrite parse_snoc.
  - unfold Credentials.parse_line.
    change (key ++ js "=" ++ value) with (key ++ 61 :: value).
    rewrite split_app_sep, (split_no_sep 61 key Hk61), (split_no_sep 61 value Hv61).
    cbn [app].
    destruct key; [contradiction|]. destruct value; [contradiction|].
    cbn [truthy andb]. rewrite get_assign.
    destruct (str_eqb (trim (c :: key)) (js "__proto__")) eqn:E.
    + apply str_eqb_eq in E. contradiction.
    + now rewrite str_eqb_refl.
  - intros Hin. apply in_app_or in Hin as [Hin|Hin]; [contradiction|].
    destruct Hin as [Hin|Hin]; [discriminate | contradiction].
Qed.

Lemma parse_last_line_wins_witness :
  Credentials.get (js "PIE_APP_ID")
    (Credentials.parse
       (js "PIE_APP_ID=old" ++ nl ++ js "PIE_APP_SECRET=s3cret"
          ++ nl ++ js " PIE_APP_ID" ++ js "=" ++ js " app-42 "))
  = Some (js "app-42").
Proof.
  apply (parse_last_line_wins
           (js "PIE_APP_ID=old" ++ nl ++ js "PIE_APP_SECRET=s3cret")
           (js " PIE_APP_ID") (js " app-42 "));
    try discriminate; vm_compute; intuition discriminate.
Defined.

(** X9. A credentials line is read up to its second [=]: whatever
    follows a second [=] is dropped, so a value that holds [=] is cut
    short. *)
Theorem parse_line_cuts_at_second_equals (env : Credentials.object)
    (key value rest : jsstring) :
  ~ In 61 key -> ~ In 61 value ->
  Credentials.parse_line env (key ++ js "=" ++ value ++ js "=" ++ rest)
  = Credentials.parse_line env (key ++ js "=" ++ value).
Proof.
  intros Hk Hv. unfold Credentials.parse_line.
  change (key ++ js "=" ++ value ++ js "=" ++ rest)
    with (key ++ 61 :: (value ++ 61 :: rest)).
  change (key ++ js "=" ++ value) with (key ++ 61 :: value).
  rewrite !split_app_sep, (split_no_sep 61 key Hk), (split_no_sep 61 value Hv).
  reflexivity.
Qed.

Lemma parse_line_cuts_at_second_equals_witness :
  Credentials.parse_line [] (js "PIE_APP_SECRET" ++ js "=" ++ js "c2VjcmV0" ++ js "=" ++ js "=")
  = [(js "PIE_APP_SECRET", js "c2VjcmV0")].
Proof.
  rewrite (parse_line_cuts_at_second_equals [] (js "PIE_APP_SECRET") (js "c2VjcmV0") (js "="));
    [reflexivity | vm_compute; intuition discriminate | vm_compute; intuition discriminate].
Defined.

(** X10. A line of the credentials text without [=], such as a blank
    line or a comment, changes nothing: the text reads the same with
    the line or without it. *)
Theorem parse_skips_lines_without_equals (before line after : jsstring) :
  ~ In 61 line -> ~ In 10 line ->
  Credentials.parse (before ++ nl ++ line ++ nl ++ after)
  = Credentials.parse (before ++ nl ++ after).
Proof.
  intros H61 H10. unfold Credentials.parse, nl.
  change (before ++ [10] ++ line ++ [10] ++ after)
    with (before ++ 10 :: (line ++ 10 :: after)).
  change (before ++ [10] ++ after) with (before ++ 10 :: after).
  rewrite !split_app_sep, (split_no_sep 10 line H10), !fold_left_app.
  cbn [fold_left]. f_equal.
  unfold Credentials.parse_line at 1. now rewrite (split_no_sep 61 line H61).
Qed.

Lemma parse_skips_lines_without_equals_witness :
  Credentials.parse (js "PIE_APP_ID=app-42" ++ nl ++ js "# gateway" ++ nl
                       ++ js "PIE_GATEWAY_PATH=https://gw.example")
  = Credentials.parse (js "PIE_APP_ID=app-42" ++ nl ++ js "PIE_GATEWAY_PATH=https://gw.example").
Proof.
  apply (parse_skips_lines_without_equals (js "PIE_APP_ID=app-42") (js "# gateway")
           (js "PIE_GATEWAY_PATH=https://gw.example"));
    vm_compute; intuition discriminate.
Defined.

(* ----------------------------------------------------------------- *)
(** ** More on the time codec *)

Lemma time_fields (c : Z) :
  0 <= c ->
  let h := c / 3600000 in
  let m := c mod 3600000 / 60000 in
  let s := c mod 60000 / 1000 in
  let k := c mod 1000 in
  c = h * 3600000 + m * 60000 + s * 1000 + k
  /\ 0 <= h /\ 0 <= m < 60 /\ 0 <= s < 60 /\ 0 <= k < 1000.
Proof.
  intros Hc h m s k. subst h m s k.
  pose proof (Z.div_mod c 3600000 ltac:(lia)) as E1.
  pose proof (Z.div_mod (c mod 3600000) 60000 ltac:(lia)) as E2.
  pose proof (Z.div_mod (c mod 60000) 1000 ltac:(lia)) as E3.
  assert (E4 : (c mod 3600000) mod 60000 = c mod 60000)
    by (apply Z.mod_mod_divide; exists 60; reflexivity).
  assert (E5 : (c mod 60000) mod 1000 = c mod 1000)
    by (apply Z.mod_mod_divide; exists 60; reflexivity).
  pose proof (Z.mod_pos_bound c 3600000 ltac:(lia)).
  pose proof (Z.mod_pos_bound c 60000 ltac:(lia)).
  pose proof (Z.mod_pos_bound c 1000 ltac:(lia)).
  split_all; try lia; try (apply Z.div_pos; lia);
    apply Z.div_lt_upper_bound; lia.
Qed.

Lemma msToSrtTime_clamp (ms : Z) : msToSrtTime (Int ms) = msToSrtTime (Int (Z.max 0 ms)).
Proof.
  unfold msToSrtTime, lt0.
  destruct (Z.ltb_spec ms 0) as [Hneg|Hpos].
  - rewrite Z.max_l by lia. reflexivity.
  - rewrite Z.max_r by lia. destruct (Z.ltb_spec ms 0); [lia | reflexivity].
Qed.

Lemma digits_then_colon (x y r r' : jsstring) :
  Forall (fun c => isDigit c = true) x -> Forall (fun c => isDigit c = true) y ->
  x ++ 58 :: r = y ++ 58 :: r' -> x = y /\ r = r'.
Proof.
  intros Hx. revert y. induction Hx as [|a x Ha _ IH]; intros y Hy E.
  - destruct Hy as [|b y Hb _]; cbn in E.
    + injection E as <-. now split.
    + injection E as <- _. discriminate.
  - destruct Hy as [|b y Hb Hy]; cbn in E.
    + injection E as -> _. discriminate.
    + injection E as -> E. destruct (IH y Hy E) as [-> ->]. now split.
Qed.

Lemma hours_field (h : Z) :
  0 <= h ->
  Forall (fun c => isDigit c = true) (padStart 2 zero (decimal h))
  /\ digits_value (padStart 2 zero (decimal h)) = h.
Proof.
  intros Hh. split.
  - apply padStart_Forall; [reflexivity | apply decimal_isDigit].
  - unfold padStart, zero. rewrite digits_value_zeros. now apply decimal_value.
Qed.

(** X11. Two integer times below 2^53 render the same exactly when they
    are the same once negatives are clamped to 0: in that range the
    codec never gives two distinct non-negative times one text. *)
Theorem msToSrtTime_injective (a b : Z) :
  a < 2 ^ 53 -> b < 2 ^ 53 ->
  msToSrtTime (Int a) = msToSrtTime (Int b) <-> Z.max 0 a = Z.max 0 b.
Proof.
  intros Ha Hb. split.
  - rewrite (msToSrtTime_clamp a), (msToSrtTime_clamp b).
    set (x := Z.max 0 a). set (y := Z.max 0 b).
    assert (Hx : 0 <= x) by (subst x; lia).
    assert (Hy : 0 <= y) by (subst y; lia).
    assert (Hx' : 0 <= x < 2 ^ 53).
    { split; [exact Hx|]. subst x. apply Z.max_lub_lt; [reflexivity | exact Ha]. }
    assert (Hy' : 0 <= y < 2 ^ 53).
    { split; [exact Hy|]. subst y. apply Z.max_lub_lt; [reflexivity | exact Hb]. }
    rewrite (msToSrtTime_render x Hx'), (msToSrtTime_render y Hy').
    cbv zeta. intros E.
    destruct (time_fields x Hx) as (Ex & Hhx & Hmx & Hsx & Hkx).
    destruct (time_fields y Hy) as (Ey & Hhy & Hmy & Hsy & Hky).
    cbv zeta in Ex, Ey, Hhx, Hhy, Hmx, Hmy, Hsx, Hsy, Hkx, Hky.
    destruct (hours_field _ Hhx) as [Dx Vx]. destruct (hours_field _ Hhy) as [Dy Vy].
    apply digits_then_colon in E as [Eh Er]; [|assumption|assumption].
    rewrite Eh in Vx. rewrite Vx in Vy.
    pose proof (f_equal (fun l => nth 0 l 0) Er) as M1.
    pose proof (f_equal (fun l => nth 1 l 0) Er) as M2.
    pose proof (f_equal (fun l => nth 3 l 0) Er) as S1.
    pose proof (f_equal (fun l => nth 4 l 0) Er) as S2.
    pose proof (f_equal (fun l => nth 6 l 0) Er) as K1.
    pose proof (f_equal (fun l => nth 7 l 0) Er) as K2.
    pose proof (f_equal (fun l => nth 8 l 0) Er) as K3.
    cbn [nth] in M1, M2, S1, S2, K1, K2, K3. clear Er.
    pose proof (Z.div_mod (x mod 3600000 / 60000) 10 ltac:(lia)).
    pose proof (Z.div_mod (y mod 3600000 / 60000) 10 ltac:(lia)).
    pose proof (Z.div_mod (x mod 60000 / 1000) 10 ltac:(lia)).
    pose proof (Z.div_mod (y mod 60000 / 1000) 10 ltac:(lia)).
    pose proof (Z.div_mod (x mod 1000) 10 ltac:(lia)).
    pose proof (Z.div_mod (y mod 1000) 10 ltac:(lia)).
    pose proof (Z.div_mod (x mod 1000 / 10) 10 ltac:(lia)).
    pose proof (Z.div_mod (y mod 1000 / 10) 10 ltac:(lia)).
    assert (x mod 1000 / 10 / 10 = x mod 1000 / 100) by (rewrite Z.div_div by lia; reflexivity).
    assert (y mod 1000 / 10 / 10 = y mod 1000 / 100) by (rewrite Z.div_div by lia; reflexivity).
    lia.
  - intros E. now rewrite (msToSrtTime_clamp a), (msToSrtTime_clamp b), E.
Qed.

Lemma msToSrtTime_injective_witness :
  -5 < 2 ^ 53 /\ 0 < 2 ^ 53 /\ msToSrtTime (Int (-5)) = msToSrtTime (Int 0).
Proof.
  split; [reflexivity|]. split; [reflexivity|].
  apply (proj2 (msToSrtTime_injective (-5) 0 eq_refl eq_refl)). reflexivity.
Defined.

Lemma digits_value_bound (s : jsstring) : forall acc,
  Forall (fun c => isDigit c = true) s -> 0 <= acc ->
  0 <= fold_left (fun a c => 10 * a + (c - 48)) s acc
    < (acc + 1) * 10 ^ Z.of_nat (length s).
Proof.
  induction s as [|c s IH]; intros acc Hs Hacc; cbn [fold_left length].
  - cbn. lia.
  - inversion Hs as [|? ? Hc Hs']; subst. apply isDigit_range in Hc.
    specialize (IH (10 * acc + (c - 48)) Hs' ltac:(lia)).
    rewrite Nat2Z.inj_succ, Z.pow_succ_r by lia.
    assert (0 < 10 ^ Z.of_nat (length s)) by (apply Z.pow_pos_nonneg; lia).
    nia.
Qed.

Lemma decimal_short (h : Z) : 0 <= h -> (length (decimal h) <= 2)%nat <-> h < 100.
Proof.
  intros Hh. split.
  - intros Hlen.
    pose proof (digits_value_bound (decimal h) 0 (decimal_isDigit h) ltac:(lia)) as Hb.
    fold (digits_value (decimal h)) in Hb. rewrite (decimal_value h Hh) in Hb.
    assert (10 ^ Z.of_nat (length (decimal h)) <= 10 ^ 2)
      by (apply Z.pow_le_mono_r; lia).
    lia.
  - intros Hlt. pose proof (pad2_digits h ltac:(lia)) as E.
    apply (f_equal (@length code_unit)) in E.
    rewrite padStart_length in E. cbn [length] in E. lia.
Qed.

(** X12. A rendered time below 2^53 milliseconds is never shorter than
    the twelve units of [HH:MM:SS,mmm], and it has exactly twelve as
    long as the time is under a hundred hours; from a hundred hours on
    the hour field grows and nothing is cut. *)
Theorem msToSrtTime_width (ms : Z) :
  ms < 2 ^ 53 ->
  (12 <= length (msToSrtTime (Int ms)))%nat
  /\ (length (msToSrtTime (Int ms)) = 12%nat <-> ms < 360000000)
  /\ digits_value (firstn (length (msToSrtTime (Int ms)) - 10) (msToSrtTime (Int ms)))
     = Z.max 0 ms / 3600000.
Proof.
  intros Hsafe.
  rewrite (msToSrtTime_clamp ms).
  set (c := Z.max 0 ms). assert (Hc : 0 <= c) by (subst c; lia).
  assert (Hc' : 0 <= c < 2 ^ 53).
  { split; [exact Hc|]. subst c. apply Z.max_lub_lt; [reflexivity | exact Hsafe]. }
  rewrite (msToSrtTime_render c Hc'). cbv zeta.
  destruct (time_fields c Hc) as (_ & Hh & _). cbv zeta in Hh.
  rewrite length_app, padStart_length. cbn [length].
  split_all.
  - lia.
  - split; [intros Hlen | intros Hms].
    + assert (Hshort : (length (decimal (c / 3600000)) <= 2)%nat) by lia.
      apply decimal_short in Hshort; [|exact Hh].
      assert (c < 360000000)
        by (pose proof (Z.div_mod c 3600000 ltac:(lia));
            pose proof (Z.mod_pos_bound c 3600000 ltac:(lia)); lia).
      subst c. lia.
    + assert (Hlt : c / 3600000 < 100) by (apply Z.div_lt_upper_bound; subst c; lia).
      apply decimal_short in Hlt; [|exact Hh]. lia.
  - replace (Nat.max 2 (length (decimal (c / 3600000))) + 10 - 10)%nat
      with (length (padStart 2 zero (decimal (c / 3600000))))
      by (rewrite padStart_length; lia).
    rewrite firstn_app, firstn_all, Nat.sub_diag. cbn [firstn]. rewrite app_nil_r.
    now apply hours_field.
Qed.

Lemma msToSrtTime_width_witness :
  360000000 < 2 ^ 53
  /\ (12 <= length (msToSrtTime (Int 360000000)))%nat
  /\ digits_value (firstn (length (msToSrtTime (Int 360000000)) - 10)
                          (msToSrtTime (Int 360000000))) = 100.
Proof.
  destruct (msToSrtTime_width 360000000 eq_refl) as (L & _ & V).
  split; [reflexivity|]. split; [exact L | exact V].
Defined.

(* ----------------------------------------------------------------- *)
(** ** More on the serializer *)

Lemma emitted_app (us vs : list utterance) : emitted (us ++ vs) = emitted us ++ emitted vs.
Proof. unfold emitted. apply filter_app. Qed.

Lemma numbered_blocks_app (a b : list utterance) : forall k,
  numbered_blocks k (a ++ b)
  = numbered_blocks k a ++ numbered_blocks (k + Z.of_nat (length a)) b.
Proof.
  induction a as [|u a IH]; intros k.
  - cbn [app numbered_blocks length]. now rewrite Z.add_0_r.
  - cbn [app numbered_blocks length]. rewrite IH, <- app_assoc.
    do 3 f_equal. lia.
Qed.

(** X13. Serializing one sequence after another is serializing the
    first and going on numbering the second from where the first
    stopped: the text for [us ++ vs] is the text for [us] followed by
    the blocks of the kept utterances of [vs], numbered from one more
    than the number of kept utterances of [us]. *)
Theorem generateSRT_app (us vs : list utterance) :
  generateSRT (us ++ vs)
  = generateSRT us
      ++ numbered_blocks (1 + Z.of_nat (length (emitted us))) (emitted vs).
Proof.
  rewrite !generateSRT_numbered, emitted_app. apply numbered_blocks_app.
Qed.

Lemma block_not_empty (k : Z) (u : utterance) : block k u <> [].
Proof.
  unfold block. intros E. apply (f_equal (@length code_unit)) in E.
  rewrite !length_app in E. cbn [length nl] in E. lia.
Qed.

(** X14. The serializer returns the empty string only when there is
    nothing to show: its text is empty exactly when the trimmed text of
    every utterance is empty. *)
Theorem generateSRT_empty_iff (utterances : list utterance) :
  generateSRT utterances = [] <-> Forall (fun u => trim (text u) = []) utterances.
Proof.
  rewrite generateSRT_numbered. unfold emitted.
  induction utterances as [|u us IH]; cbn [filter].
  - split; [constructor | reflexivity].
  - destruct (truthy (trim (text u))) eqn:Hkeep.
    + split.
      * cbn [numbered_blocks]. intros E. apply app_eq_nil in E as [E _].
        now apply block_not_empty in E.
      * intros H. inversion H as [|? ? Hu _]; subst. rewrite Hu in Hkeep. discriminate.
    + apply truthy_false in Hkeep. rewrite IH. split.
      * intros H. now constructor.
      * intros H. now inversion H.
Qed.

(* ----------------------------------------------------------------- *)
(** ** More on the alignment route *)

Lemma map_index_Forall {A B : Type} (P : A -> Prop) (Q : B -> Prop)
    (f : A -> nat -> B) (l : list A) :
  (forall x i, P x -> Q (f x i)) ->
  forall k, Forall P l -> Forall Q (map_index f k l).
Proof.
  intros Hf k Hl. revert k.
  induction Hl as [|x l Hx _ IH]; intros k; cbn [map_index]; constructor; auto.
Qed.

Lemma filter_all {A : Type} (f : A -> bool) (l : list A) :
  Forall (fun x => f x = true) l -> filter f l = l.
Proof.
  induction 1 as [|x l Hx _ IH]; [reflexivity|]. cbn [filter]. now rewrite Hx, IH.
Qed.

Lemma nonEmptyLines_lines (subtitleText : jsstring) :
  Forall (fun line => truthy (trim line) = true /\ ~ In 10 line)
         (nonEmptyLines subtitleText).
Proof.
  unfold nonEmptyLines. apply Forall_forall. intros line Hin.
  apply filter_In in Hin as [Hin Hkeep]. split; [exact Hkeep|].
  pose proof (split_pieces 10 subtitleText) as H.
  rewrite Forall_forall in H. exact (proj1 (H line Hin)).
Qed.

Lemma cue_texts (a : float) (l : list jsstring) : forall k,
  map text (map_index (cue a) k l) = map trim l.
Proof.
  induction l as [|x l IH]; intros k; [reflexivity|].
  cbn [map_index map text cue]. now rewrite IH.
Qed.

(** X15. In the alignment route every retained line becomes a cue and
    none is dropped by the serializer: the cues are as many as the
    lines, the subtitle text is their blocks numbered from 1 without a
    gap, and the text of a cue is a non-empty single line with no white
    space at either end. *)
Theorem aligned_cues_all_kept (subtitleText : jsstring) (durationMs : float) :
  let lines := nonEmptyLines subtitleText in
  let cues := uniform_utterances lines durationMs in
  length cues = length lines
  /\ map text cues = map trim lines
  /\ generateSRT cues = numbered_blocks 1 cues
  /\ Forall (fun u => text u <> [] /\ ~ In 10 (text u) /\ trim (text u) = text u) cues.
Proof.
  intros lines cues.
  assert (Hcues : Forall (fun u => text u <> [] /\ ~ In 10 (text u)
                                   /\ trim (text u) = text u) cues).
  { subst cues. unfold uniform_utterances.
    apply (map_index_Forall (fun line => truthy (trim line) = true /\ ~ In 10 line));
      [|apply nonEmptyLines_lines].
    intros line i [Hkeep Hnl]. cbn [text cue]. split_all.
    - intros E. rewrite E in Hkeep. discriminate.
    - intros Hin. apply Hnl.
      assert (Hall : Forall (fun c => c <> 10) line)
        by (apply Forall_forall; intros c Hc ->; contradiction).
      apply (trim_keeps (fun c => c <> 10)) in Hall.
      rewrite Forall_forall in Hall. now apply Hall in Hin.
    - apply trim_idempotent. }
  split_all.
  - apply map_index_length.
  - apply cue_texts.
  - rewrite generateSRT_numbered. f_equal. apply filter_all.
    eapply Forall_impl; [|exact Hcues]. cbn. intros u (Hne & _ & Htrim).
    rewrite Htrim. destruct (text u); [contradiction | reflexivity].
  - exact Hcues.
Qed.

Lemma mul_nan (x : float) : mul x S754_nan = S754_nan.
Proof. destruct x; reflexivity. Qed.

Lemma div_nan (y : float) : div S754_nan y = S754_nan.
Proof. destruct y; reflexivity. Qed.

Lemma uniform_utterances_nan (lines : list jsstring) :
  uniform_utterances lines S754_nan
  = map (fun line => {| start_time := NaN; end_time := NaN; text := trim line |}) lines.
Proof.
  unfold uniform_utterances, avgDuration. rewrite div_nan.
  generalize 0%nat. induction lines as [|l ls IH]; intros k; [reflexivity|].
  cbn [map_index map]. rewrite IH. unfold cue. now rewrite !mul_nan.
Qed.

(** X16. A probe output that does not read as a number is not an error
    to the alignment route: with the audio file there, at least one
    line, and the probe printing something [parseFloat] turns into NaN,
    it answers with success, reports NaN as the duration, and writes a
    subtitle file in which every time reads [NaN:NaN:NaN,NaN]. *)
Theorem align_subtitle_unreadable_duration (env : environment)
    (dirname audioPath subtitleText : jsstring) :
  existsSync env (Path.join [dirname; audioPath]) = true ->
  nonEmptyLines subtitleText <> [] ->
  probe env (probeCommand (Path.join [dirname; audioPath])) = inr S754_nan ->
  (forall path content, writeFileSync env path content = None) ->
  let srtFilename := Path.basename audioPath (Path.extname audioPath) ++ js "-manual.srt" in
  let cues := map (fun line => {| start_time := NaN; end_time := NaN; text := trim line |})
                  (nonEmptyLines subtitleText) in
  align_subtitle env dirname audioPath subtitleText
  = (Ok {| srtPath := js "/outputs/" ++ srtFilename;
           duration := S754_nan;
           lineCount := length (nonEmptyLines subtitleText) |},
     [Exec (probeCommand (Path.join [dirname; audioPath]));
      WriteFile (Path.join [dirname; js "outputs"; srtFilename]) (generateSRT cues)])
  /\ Forall (fun u => msToSrtTime (start_time u) = js "NaN:NaN:NaN,NaN"
                      /\ msToSrtTime (end_time u) = js "NaN:NaN:NaN,NaN") cues.
Proof.
  intros Hexists Hlines Hprobe Hwrite srtFilename cues. split.
  - unfold align_subtitle. rewrite Hexists. cbn [negb].
    destruct (nonEmptyLines subtitleText) as [|l ls] eqn:E; [contradiction|].
    cbn [length Nat.eqb]. rewrite Hprobe, Hwrite.
    change (mul S754_nan (of_Z 1000)) with S754_nan.
    rewrite uniform_utterances_nan. reflexivity.
  - subst cues. apply Forall_forall. intros u Hu.
    apply in_map_iff in Hu as (line & <- & _). split; reflexivity.
Qed.

Lemma align_subtitle_unreadable_duration_witness :
  let env := {| existsSync := fun _ => true;
                probe := fun _ => inr S754_nan;
                writeFileSync := fun _ _ => None |} in
  fst (align_subtitle env (js "/srv/app") (js "/uploads/17-talk.mp3") (js "Hello"))
  = Ok {| srtPath := js "/outputs/17-talk-manual.srt";
          duration := S754_nan;
          lineCount := 1 |}.
Proof.
  intros env.
  exact (f_equal fst
           (proj1 (align_subtitle_unreadable_duration env (js "/srv/app")
                     (js "/uploads/17-talk.mp3") (js "Hello")
                     eq_refl ltac:(discriminate) eq_refl (fun _ _ => eq_refl)))).
Defined.

(** X17. The alignment route writes a file only after the probe has
    succeeded: whenever a write is among its effects, the audio file
    was there, some line was retained, the probe returned a duration,
    the effects are that probe followed by that one write, and what is
    written is the serialization of the uniform allocation over the
    probed duration. *)
Theorem align_subtitle_writes_after_probe (env : environment)
    (dirname audioPath subtitleText path content : jsstring) :
  In (WriteFile path content) (snd (align_subtitle env dirname audioPath subtitleText)) ->
  let fullPath := Path.join [dirname; audioPath] in
  exists durationSec,
    existsSync env fullPath = true
    /\ nonEmptyLines subtitleText <> []
    /\ probe env (probeCommand fullPath) = inr durationSec
    /\ snd (align_subtitle env dirname audioPath subtitleText)
       = [Exec (probeCommand fullPath); WriteFile path content]
    /\ path = Path.join [dirname; js "outputs";
                         Path.basename audioPath (Path.extname audioPath)
                           ++ js "-manual.srt"]
    /\ content = generateSRT (uniform_utterances (nonEmptyLines subtitleText)
                                (mul durationSec (of_Z 1000))).
Proof.
  intros Hin fullPath. unfold align_subtitle in *. fold fullPath in Hin |- *.
  destruct (existsSync env fullPath); cbn [negb] in *; [|destruct Hin].
  destruct (nonEmptyLines subtitleText) as [|l ls] eqn:E; [destruct Hin|].
  cbn [length Nat.eqb] in *.
  destruct (probe env (probeCommand fullPath)) as [m|durationSec].
  - cbn in Hin. destruct Hin as [Hin|[]]. discriminate.
  - exists durationSec.
    assert (Hw : WriteFile path content
                 = WriteFile (Path.join [dirname; js "outputs";
                      Path.basename audioPath (Path.extname audioPath) ++ js "-manual.srt"])
                     (generateSRT (uniform_utterances (l :: ls)
                                     (mul durationSec (of_Z 1000))))).
    { destruct (writeFileSync env _ _); cbn [snd] in Hin;
        destruct Hin as [Hin|[Hin|[]]]; try discriminate; now symmetry. }
    injection Hw as -> ->.
    split_all; try reflexivity; try discriminate.
    destruct (writeFileSync env _ _); reflexivity.
Qed.

Lemma align_subtitle_writes_after_probe_witness :
  let env := {| existsSync := fun _ => true;
                probe := fun _ => inr (of_Z 4);
                writeFileSync := fun _ _ => None |} in
  exists durationSec,
    probe env (probeCommand (Path.join [js "/srv/app"; js "/uploads/17-talk.mp3"]))
    = inr durationSec.
Proof.
  intros env.
  destruct (align_subtitle_writes_after_probe env (js "/srv/app")
              (js "/uploads/17-talk.mp3") (js "Hello")
              (js "/srv/app/outputs/17-talk-manual.srt")
              (js "1" ++ nl ++ js "00:00:00,000 --> 00:00:04,000" ++ nl
                 ++ js "Hello" ++ nl ++ nl)
              (or_intror (or_introl eq_refl)))
    as (durationSec & _ & _ & Hprobe & _).
  exists durationSec. exact Hprobe.
Defined.

(* ----------------------------------------------------------------- *)
(** ** More on the request signer *)

Lemma hexdigit_injective (d e : Z) :
  0 <= d < 16 -> 0 <= e < 16 -> Signer.hexdigit d = Signer.hexdigit e -> d = e.
Proof.
  unfold Signer.hexdigit. intros Hd He.
  destruct (Z.ltb_spec d 10), (Z.ltb_spec e 10); lia.
Qed.

Lemma toHex_injective (bs bs' : list Z) :
  Forall (fun b => 0 <= b < 256) bs -> Forall (fun b => 0 <= b < 256) bs' ->
  Signer.toHex bs = Signer.toHex bs' -> bs = bs'.
Proof.
  intros Hbs. revert bs'. unfold Signer.toHex.
  induction Hbs as [|b bs Hb _ IH]; intros bs' Hbs' E.
  - destruct Hbs' as [|b' bs' _ _]; [reflexivity | discriminate].
  - destruct Hbs' as [|b' bs' Hb' Hbs']; [discriminate|].
    cbn [flat_map app] in E. injection E as E1 E2 E3.
    apply hexdigit_injective in E1, E2;
      try (split; [apply Z.div_pos | apply Z.div_lt_upper_bound]; lia);
      try (apply Z.mod_pos_bound; lia).
    f_equal; [|now apply IH].
    pose proof (Z.div_mod b 16 ltac:(lia)). pose proof (Z.div_mod b' 16 ltac:(lia)). lia.
Qed.

(** X18. The nonce tells the random bytes apart: two draws of random
    bytes give the same hex nonce exactly when they are the same
    bytes. *)
Theorem nonce_injective (source source' : nat -> Z) (n : nat) :
  Signer.toHex (Signer.randomBytes source n) = Signer.toHex (Signer.randomBytes source' n)
  <-> Signer.randomBytes source n = Signer.randomBytes source' n.
Proof.
  split; [|now intros ->].
  apply toHex_injective; apply randomBytes_range.
Qed.

Lemma split_not_empty (sep : code_unit) (s : jsstring) : split sep s <> [].
Proof.
  destruct s as [|c s]; cbn [split]; [discriminate|].
  destruct (unit_eqb c sep); [discriminate|]. destruct (split sep s); discriminate.
Qed.

Lemma join_split (sep : code_unit) (s : jsstring) : JS.join [sep] (split sep s) = s.
Proof.
  induction s as [|c s IH]; [reflexivity|].
  pose proof (split_not_empty sep s) as Hne.
  cbn [split]. remember (split sep s) as pieces eqn:E.
  destruct pieces as [|p ps]; [contradiction|].
  unfold unit_eqb. destruct (Z.eqb_spec c sep) as [->|Hc].
  - change (JS.join [sep] ([] :: p :: ps)) with (sep :: JS.join [sep] (p :: ps)).
    now rewrite IH.
  - destruct ps as [|q ps].
    + change (JS.join [sep] [p]) with p in IH. now subst.
    + change (JS.join [sep] ((c :: p) :: q :: ps))
        with (c :: JS.join [sep] (p :: q :: ps)).
      now rewrite IH.
Qed.

Lemma split_injective (sep : code_unit) (s s' : jsstring) :
  split sep s = split sep s' -> s = s'.
Proof. intros E. rewrite <- (join_split sep s), <- (join_split sep s'). now rewrite E. Qed.

Lemma digits_grows (fuel : nat) : forall m acc,
  (length acc <= length (digits fuel m acc))%nat.
Proof.
  induction fuel as [|fuel IH]; intros m acc; cbn [digits]; [lia|].
  destruct (m <? 10); [cbn [length]; lia|].
  specialize (IH (m / 10) ((48 + m mod 10) :: acc)). cbn [length] in IH. lia.
Qed.

Lemma decimal_not_empty_head (n : Z) :
  exists d rest, decimal n = d :: rest /\ isDigit d = true.
Proof.
  pose proof (decimal_isDigit n) as H.
  destruct (decimal n) as [|d rest] eqn:E.
  - exfalso. unfold decimal in E. apply (f_equal (@length code_unit)) in E.
    cbn [digits] in E. destruct (n <? 10); [discriminate|].
    pose proof (digits_grows (Z.to_nat (Z.log2 n)) (n / 10) [48 + n mod 10]) as Hlen.
    cbn [length] in *. unfold jsstring, code_unit in *. lia.
  - exists d, rest. split; [reflexivity | now inversion H].
Qed.

Lemma Z_toString_injective (a b : Z) : Z_toString a = Z_toString b -> a = b.
Proof.
  unfold Z_toString.
  destruct (Z.ltb_spec a 0) as [Ha|Ha], (Z.ltb_spec b 0) as [Hb|Hb]; intros E.
  - injection E as E. apply (f_equal digits_value) in E.
    rewrite !decimal_value in E by lia. lia.
  - destruct (decimal_not_empty_head b) as (d & rest & Hd & Hdig).
    rewrite Hd in E. injection E as <- _. discriminate.
  - destruct (decimal_not_empty_head a) as (d & rest & Hd & Hdig).
    rewrite Hd in E. injection E as -> _. discriminate.
  - apply (f_equal digits_value) in E. now rewrite !decimal_value in E by lia.
Qed.

Lemma Z_toString_one_line (z : Z) : ~ In 10 (Z_toString z).
Proof.
  intros Hin. pose proof (Z_toString_units z) as H. rewrite Forall_forall in H.
  destruct (H 10 Hin) as [E|E]; discriminate.
Qed.

Lemma signatureString_split (method apiPath : jsstring) (timestamp : Z)
    (nonce appId : jsstring) :
  ~ In 10 method -> ~ In 10 apiPath -> ~ In 10 nonce ->
  split 10 (signatureString method apiPath timestamp nonce appId)
  = [method; apiPath; Z_toString timestamp; nonce] ++ split 10 appId.
Proof.
  intros Hm Hp Hn. unfold signatureString, nl.
  change (method ++ [10] ++ apiPath ++ [10] ++ Z_toString timestamp ++ [10]
            ++ nonce ++ [10] ++ appId)
    with (method ++ 10 :: (apiPath ++ 10 :: (Z_toString timestamp ++ 10
            :: (nonce ++ 10 :: appId)))).
  rewrite !split_app_sep.
  rewrite (split_no_sep 10 method Hm), (split_no_sep 10 apiPath Hp),
    (split_no_sep 10 nonce Hn), (split_no_sep 10 _ (Z_toString_one_line timestamp)).
  reflexivity.
Qed.

Section SigningString.
Variable hmac_sha256_hex : jsstring -> jsstring -> jsstring.

(** X19. The text that is signed reads back in one way only: it is what
    the [Authorization] header is computed from, and when method, path
    and nonce hold no line break, two signed texts are equal only if
    method, path, timestamp, nonce and app id are all equal. *)
Theorem signatureString_unambiguous
    (method apiPath nonce appId method' apiPath' nonce' appId' : jsstring)
    (timestamp timestamp' : Z) :
  ~ In 10 method -> ~ In 10 apiPath -> ~ In 10 nonce ->
  ~ In 10 method' -> ~ In 10 apiPath' -> ~ In 10 nonce' ->
  (forall now source appSecret,
     In (js "Authorization",
         js "HMAC-SHA256 "
           ++ hmac_sha256_hex appSecret
                (signatureString method apiPath (now / 1000)
                   (Signer.toHex (Signer.randomBytes source 16)) appId))
        (Signer.generateAuthHeaders hmac_sha256_hex now source method apiPath appId appSecret))
  /\ (signatureString method apiPath timestamp nonce appId
      = signatureString method' apiPath' timestamp' nonce' appId'
      -> method = method' /\ apiPath = apiPath' /\ timestamp = timestamp'
         /\ nonce = nonce' /\ appId = appId').
Proof.
  intros Hm Hp Hn Hm' Hp' Hn'. split.
  - intros now source appSecret. unfold Signer.generateAuthHeaders, signatureString.
    do 3 right. left. reflexivity.
  - intros E. apply (f_equal (split 10)) in E.
    rewrite !signatureString_split in E by assumption.
    cbn [app] in E. injection E as -> -> Et -> Eid.
    apply Z_toString_injective in Et. apply split_injective in Eid.
    now subst.
Qed.
End SigningString.

Lemma signatureString_unambiguous_witness :
  js "POST" = js "POST" /\ js "/asr/volcengine_quick" = js "/asr/volcengine_quick"
  /\ 1700000000 = 1700000000 /\ js "00ff" = js "00ff" /\ js "app-42" = js "app-42".
Proof.
  apply (proj2 (signatureString_unambiguous (fun key message => key ++ message)
                  (js "POST") (js "/asr/volcengine_quick") (js "00ff") (js "app-42")
                  (js "POST") (js "/asr/volcengine_quick") (js "00ff") (js "app-42")
                  1700000000 1700000000
                  ltac:(vm_compute; intuition discriminate)
                  ltac:(vm_compute; intuition discriminate)
                  ltac:(vm_compute; intuition discriminate)
                  ltac:(vm_compute; intuition discriminate)
                  ltac:(vm_compute; intuition discriminate)
                  ltac:(vm_compute; intuition discriminate))).
  reflexivity.
Defined.

(* ----------------------------------------------------------------- *)
(** ** The public path of a finished video *)

Lemma percent_safe (b : Z) :
  0 <= b < 256 -> Forall (fun c => isUriSafe c = true) (percent b).
Proof.
  intros Hb. unfold percent.
  assert (HEX : forall d, 0 <= d < 16 ->
            isUriSafe (if d <? 10 then 48 + d else 55 + d) = true).
  { intros d Hd.
    assert (Hall : forallb (fun i => let d := Z.of_nat i in
                      isUriSafe (if d <? 10 then 48 + d else 55 + d)) (seq 0 16) = true)
      by (vm_compute; reflexivity).
    rewrite forallb_forall in Hall. specialize (Hall (Z.to_nat d)).
    cbv zeta in Hall. rewrite Z2Nat.id in Hall by lia. apply Hall, in_seq. lia. }
  constructor; [reflexivity|]. constructor; [|constructor; [|constructor]]; apply HEX.
  - split; [apply Z.div_pos; lia | apply Z.div_lt_upper_bound; lia].
  - apply Z.mod_pos_bound. lia.
Qed.

Lemma utf8_bytes_range (cp : Z) :
  0 <= cp < 0x110000 -> Forall (fun b => 0 <= b < 256) (utf8_bytes cp).
Proof.
  intros Hcp. unfold utf8_bytes.
  pose proof (Z.mod_pos_bound cp 64 ltac:(lia)).
  pose proof (Z.mod_pos_bound (cp / 64) 64 ltac:(lia)).
  pose proof (Z.mod_pos_bound (cp / 4096) 64 ltac:(lia)).
  destruct (Z.ltb_spec cp 0x80); [repeat constructor; lia|].
  destruct (Z.ltb_spec cp 0x800).
  { assert (0 <= cp / 64 < 32)
      by (split; [apply Z.div_pos | apply Z.div_lt_upper_bound]; lia).
    repeat constructor; lia. }
  destruct (Z.ltb_spec cp 0x10000).
  { assert (0 <= cp / 4096 < 16)
      by (split; [apply Z.div_pos | apply Z.div_lt_upper_bound]; lia).
    repeat constructor; lia. }
  assert (0 <= cp / 262144 < 5)
    by (split; [apply Z.div_pos | apply Z.div_lt_upper_bound]; lia).
  repeat constructor; lia.
Qed.

Lemma escaped_safe (cp : Z) :
  0 <= cp < 0x110000 ->
  Forall (fun c => isUriSafe c = true) (flat_map percent (utf8_bytes cp)).
Proof.
  intros Hcp. pose proof (utf8_bytes_range cp Hcp) as Hb.
  induction Hb as [|b bs Hb _ IH]; [constructor|].
  cbn [flat_map]. apply Forall_app. split; [now apply percent_safe | exact IH].
Qed.

Lemma encodeURIComponent_safe_upto (n : nat) : forall s encoded,
  (length s <= n)%nat -> well_formed s ->
  encodeURIComponent s = Some encoded ->
  Forall (fun c => isUriSafe c = true) encoded.
Proof.
  induction n as [|n IH]; intros s encoded Hlen Hs E.
  - destruct s; [|cbn in Hlen; lia]. injection E as <-. constructor.
  - destruct s as [|c t]; [injection E as <-; constructor|].
    inversion Hs as [|? ? Hc Ht]; subst. cbn [length] in Hlen.
    cbn [encodeURIComponent] in E.
    destruct (isUnreserved c) eqn:Hun.
    { destruct (encodeURIComponent t) as [e|] eqn:Et; [|discriminate].
      injection E as <-. constructor.
      - unfold isUriSafe. now rewrite Hun.
      - apply (IH t e); [lia | assumption | assumption]. }
    destruct (isLowSurrogate c); [discriminate|].
    destruct (isHighSurrogate c) eqn:Hhi.
    + destruct t as [|d t']; [discriminate|].
      destruct (isLowSurrogate d) eqn:Hlo; [|discriminate].
      inversion Ht as [|? ? Hd Ht']; subst. cbn [length] in Hlen.
      destruct (encodeURIComponent t') as [e|] eqn:Et; [|discriminate].
      injection E as <-. apply Forall_app. split.
      * apply escaped_safe. unfold pair_code_point.
        unfold isHighSurrogate in Hhi. unfold isLowSurrogate in Hlo.
        apply andb_true_iff in Hhi as [H1 H2]. apply andb_true_iff in Hlo as [H3 H4].
        apply Z.leb_le in H1, H2, H3, H4. lia.
      * apply (IH t' e); [lia | assumption | assumption].
    + destruct (encodeURIComponent t) as [e|] eqn:Et; [|discriminate].
      injection E as <-. apply Forall_app. split.
      * apply escaped_safe. lia.
      * apply (IH t e); [lia | assumption | assumption].
Qed.

Section VideoPath.
Variable unicode_upper : Z -> jsstring.
Variable dirname : jsstring.
Variable now : Z.

(** X20. When the video route answers with success for an upload name
    made of 16-bit code units, the public path it returns is
    [/outputs/videos/] followed only by URL-safe units: letters, digits,
    the marks [-_.!~*'()] and percent escapes, so without space, double
    quote or slash. *)
Theorem videoPath_uri_safe (execSync : jsstring -> option jsstring)
    (r : Video.request) (p : Video.produced) :
  match Video.originalFilename r with Some f => well_formed f | None => True end ->
  fst (Video.generate_video unicode_upper dirname now execSync r) = Ok p ->
  exists encoded,
    Video.videoPath p = js "/outputs/videos/" ++ encoded
    /\ Forall (fun c => isUriSafe c = true) encoded
    /\ encodeURIComponent (Video.downloadFilename p) = Some encoded.
Proof.
  intros Hname Hok. unfold Video.generate_video in Hok.
  destruct (execSync _); [discriminate|].
  destruct (encodeURIComponent (Video.outputName (Video.originalFilename r) now))
    as [encoded|] eqn:E; [|discriminate].
  cbn [fst] in Hok. injection Hok as <-. exists encoded. cbn [Video.videoPath Video.downloadFilename].
  split_all; [reflexivity | | exact E].
  apply (encodeURIComponent_safe_upto _ _ encoded (Nat.le_refl _)) in E; [exact E|].
  unfold Video.outputName, well_formed.
  apply Forall_app. split; [apply Forall_forall; intros c Hc; vm_compute in Hc;
                            repeat (destruct Hc as [<-|Hc]; [lia|]); destruct Hc|].
  apply Forall_app. split; [|repeat constructor; lia].
  unfold Video.baseName.
  assert (Hfallback : Forall (fun c => 0 <= c < 65536) (js "video-" ++ Z_toString now)).
  { apply Forall_app. split; [repeat constructor; lia|].
    eapply Forall_impl; [|apply Z_toString_units]. cbn.
    intros c [->|Hc]; [lia|]. apply isDigit_range in Hc. lia. }
  destruct (Video.originalFilename r) as [f|]; [|exact Hfallback].
  destruct (truthy f); [now apply basename_keeps | exact Hfallback].
Qed.
End VideoPath.

Lemma well_formed_check (s : jsstring) :
  forallb (fun c => (0 <=? c) && (c <? 65536)) s = true -> well_formed s.
Proof.
  unfold well_formed. rewrite forallb_forall, Forall_forall.
  intros H c Hc. specialize (H c Hc). apply andb_true_iff in H as [H1 H2].
  apply Z.leb_le in H1. apply Z.ltb_lt in H2. lia.
Qed.

Lemma videoPath_uri_safe_witness :
  let r := {| Video.audioPath := js "/uploads/1700000000000-tape.mp3";
              Video.imagePath := js "/outputs/images/cover-1700000000001.jpg";
              Video.srtPath := None;
              Video.withSubtitles := false;
              Video.originalFilename := Some (js "tea time.mp3");
              Video.aspectRatio := None;
              Video.subtitleStyle :=
                {| Video.fontSize := None; Video.fontColor := None;
                   Video.outlineColor := None; Video.outlineWidth := None |} |} in
  let p := {| Video.videoPath :=
                js "/outputs/videos/pimsleur%20%E6%97%A5%E5%B8%B8%E8%8B%B1%E8%AF%AD%E5%AF%B9%E8%AF%9D-tea%20time.mp4";
              Video.downloadFilename := js "pimsleur 日常英语对话-tea time.mp4";
              Video.fullPath :=
                js "/srv/app/outputs/videos/pimsleur 日常英语对话-tea time.mp4" |} in
  exists encoded,
    Video.videoPath p = js "/outputs/videos/" ++ encoded
    /\ Forall (fun c => isUriSafe c = true) encoded
    /\ encodeURIComponent (Video.downloadFilename p) = Some encoded.
Proof.
  intros r p.
  apply (videoPath_uri_safe (fun cp => [cp]) (js "/srv/app") 1700000000002
           (fun _ => None) r p).
  - apply well_formed_check. vm_compute. reflexivity.
  - vm_compute. reflexivity.
Defined.

(* ----------------------------------------------------------------- *)
(** ** Subtitle style defaults *)

Lemma or_default_unset (field : option jsstring) (dflt : jsstring) :
  unset field -> or_default field dflt = dflt.
Proof.
  unfold unset, supplied, or_default. destruct field as [s|]; [|reflexivity].
  destruct (truthy s); [discriminate | reflexivity].
Qed.

(** X21. A style field that is absent or an empty string takes its
    default: with all four unset the style reads font size 24, white
    text, black outline of width 2, whatever the margin. *)
Theorem styleStr_defaults (unicode_upper : Z -> jsstring)
    (style : Video.subtitle_style) (marginV : Z) :
  unset (Video.fontSize style) -> unset (Video.fontColor style) ->
  unset (Video.outlineColor style) -> unset (Video.outlineWidth style) ->
  Video.styleStr unicode_upper style marginV
  = js "FontName=PingFang SC,FontSize=24,PrimaryColour=&H00FFFFFF,OutlineColour=&H00000000,Outline=2,Shadow=0,Alignment=2,MarginV="
      ++ Z_toString marginV.
Proof.
  intros H1 H2 H3 H4. unfold Video.styleStr.
  rewrite !or_default_unset by assumption.
  generalize (Z_toString marginV). intros tail. vm_compute. reflexivity.
Qed.

Lemma styleStr_defaults_witness :
  Video.styleStr (fun cp => [cp])
    {| Video.fontSize := Some []; Video.fontColor := None;
       Video.outlineColor := Some []; Video.outlineWidth := None |} 40
  = js "FontName=PingFang SC,FontSize=24,PrimaryColour=&H00FFFFFF,OutlineColour=&H00000000,Outline=2,Shadow=0,Alignment=2,MarginV=40".
Proof.
  apply (styleStr_defaults (fun cp => [cp])
           {| Video.fontSize := Some []; Video.fontColor := None;
              Video.outlineColor := Some []; Video.outlineWidth := None |} 40);
    reflexivity.
Defined.

(* ----------------------------------------------------------------- *)
(** ** The recognition route *)

Section Recognition.
Variable env : Asr.environment.
Variable dirname audioPath : jsstring.

Let fullPath := Path.join [dirname; audioPath].
Let here := Path.join [dirname; js ".piebox"; js "env"].
Let above := Path.join [dirname; js ".."; js ".piebox"; js "env"].

(** X22. Without a credentials file, in the server directory or one
    level up, the recognition route answers 500 with the message of the
    missing credentials and does nothing: no request is sent and no
    file is written, whether the audio file is there or not. *)
Theorem asr_without_credentials :
  Credentials.existsSync (Asr.fs env) here = false ->
  Credentials.existsSync (Asr.fs env) above = false ->
  Asr.asr env dirname audioPath
  = (Fail 500 (js "凭据文件不存在，请先运行 create-app"), []).
Proof.
  intros Hhere Habove. unfold Asr.asr, Credentials.loadCredentials.
  fold here. rewrite Hhere. cbn [negb]. fold above. rewrite Habove. reflexivity.
Qed.

(** X23. The recognition route sends a request only when it is ready
    to: whenever a request is among its actions, the credentials were
    read and hold a secret, the audio file was there and was read, and
    the request is a POST to the gateway path followed by the API path
    whose body carries the audio in base64. *)
Theorem asr_fetch_when_ready (request : Asr.fetch_request) :
  In (Asr.Fetch request) (snd (Asr.asr env dirname audioPath)) ->
  exists credentials appSecret audioBuffer,
    Credentials.loadCredentials (Asr.fs env) dirname = inr credentials
    /\ Credentials.get (js "PIE_APP_SECRET") credentials = Some appSecret
    /\ Credentials.existsSync (Asr.fs env) fullPath = true
    /\ Asr.readBytes env fullPath = inr audioBuffer
    /\ Asr.method request = js "POST"
    /\ Asr.url request
       = CoverRoute.interpolate (Credentials.get (js "PIE_GATEWAY_PATH") credentials)
           ++ Asr.apiPath
    /\ Asr.body request = Asr.requestBody (Asr.base64 audioBuffer).
Proof.
  unfold Asr.asr. fold fullPath.
  destruct (Credentials.loadCredentials (Asr.fs env) dirname) as [m|credentials];
    [intros []|].
  destruct (Credentials.existsSync (Asr.fs env) fullPath); cbn [negb]; [|intros []].
  destruct (Asr.readBytes env fullPath) as [m|audioBuffer]; [intros []|].
  destruct (Credentials.get (js "PIE_APP_SECRET") credentials) as [appSecret|]
    eqn:Hsecret; [|intros []].
  intros Hin. exists credentials, appSecret, audioBuffer.
  match type of Hin with
  | In _ (snd (match Asr.fetch env ?req with _ => _ end)) =>
    assert (Hreq : request = req)
  end.
  { destruct (Asr.fetch env _) as [m|response].
    - destruct Hin as [Hin|[]]. now injection Hin as <-.
    - destruct (Asr.ok response); cbn [negb] in Hin.
      + destruct (Asr.json response) as [m|data].
        * destruct Hin as [Hin|[]]. now injection Hin as <-.
        * destruct (Asr.writeFileSync env _ _);
            destruct Hin as [Hin|[Hin|[]]]; try discriminate; now injection Hin as <-.
      + destruct Hin as [Hin|[]]. now injection Hin as <-. }
  subst request. repeat split; try reflexivity. exact Hsecret.
Qed.

(** X24. The recognition route writes a file only after a good answer:
    whenever a write is among its actions, a request was answered with
    an ok status and readable data, what is written is the
    serialization of the utterances of that answer, and it goes to the
    outputs directory under the audio name with [.srt] for its
    extension. *)
Theorem asr_writes_after_ok (path content : jsstring) :
  In (Asr.Local (WriteFile path content)) (snd (Asr.asr env dirname audioPath)) ->
  exists request response data,
    Asr.fetch env request = inr response
    /\ Asr.ok response = true
    /\ Asr.json response = inr data
    /\ content = generateSRT (Asr.utterances data)
    /\ path = Path.join [dirname; js "outputs";
                         Path.basename audioPath (Path.extname audioPath) ++ js ".srt"]
    /\ snd (Asr.asr env dirname audioPath)
       = [Asr.Fetch request; Asr.Local (WriteFile path content)].
Proof.
  unfold Asr.asr. fold fullPath.
  destruct (Credentials.loadCredentials (Asr.fs env) dirname) as [m|credentials];
    [intros []|].
  destruct (Credentials.existsSync (Asr.fs env) fullPath); cbn [negb]; [|intros []].
  destruct (Asr.readBytes env fullPath) as [m|audioBuffer]; [intros []|].
  destruct (Credentials.get (js "PIE_APP_SECRET") credentials) as [appSecret|];
    [|intros []].
  match goal with
  | |- In _ (snd (match Asr.fetch env ?req with _ => _ end)) -> _ =>
    set (request := req)
  end.
  destruct (Asr.fetch env request) as [m|response] eqn:Hfetch.
  { intros [Hin|[]]. discriminate. }
  destruct (Asr.ok response) eqn:Hok; cbn [negb].
  2: { intros [Hin|[]]. discriminate. }
  destruct (Asr.json response) as [m|data] eqn:Hjson.
  { intros [Hin|[]]. discriminate. }
  intros Hin. exists request, response, data.
  assert (Hw : WriteFile path content
               = WriteFile
                   (Path.join [dirname; js "outputs";
                      Path.basename audioPath (Path.extname audioPath) ++ js ".srt"])
                   (generateSRT (Asr.utterances data))).
  { destruct (Asr.writeFileSync env _ _);
      destruct Hin as [Hin|[Hin|[]]]; try discriminate; injection Hin as E1 E2;
      now rewrite E1, E2. }
  injection Hw as -> ->.
  repeat split; try assumption; try reflexivity.
  destruct (Asr.writeFileSync env _ _); reflexivity.
Qed.

(** X25. When the backend answers with a status that is not ok, the
    recognition route answers 500 with the status and the body of that
    answer in its message, having sent the one request and written
    nothing. *)
Theorem asr_upstream_failure (credentials : Credentials.object)
    (appSecret : jsstring) (audioBuffer : list Z) (response : Asr.fetch_response) :
  Credentials.loadCredentials (Asr.fs env) dirname = inr credentials ->
  Credentials.get (js "PIE_APP_SECRET") credentials = Some appSecret ->
  Credentials.existsSync (Asr.fs env) fullPath = true ->
  Asr.readBytes env fullPath = inr audioBuffer ->
  (forall request, Asr.fetch env request = inr response) ->
  Asr.ok response = false ->
  exists request,
    Asr.asr env dirname audioPath
    = (Fail 500 (js "ASR 请求失败: " ++ Z_toString (Asr.status response)
                   ++ js " - " ++ Asr.responseText response),
       [Asr.Fetch request]).
Proof.
  intros Hload Hsecret Hexists Hread Hfetch Hok. unfold Asr.asr. fold fullPath.
  rewrite Hload, Hexists. cbn [negb]. rewrite Hread, Hsecret, Hfetch, Hok.
  cbn [negb]. eexists. reflexivity.
Qed.

(** X26. The recognition route answers 400 in one case only: the
    credentials were read and the audio file is not there. *)
Theorem asr_bad_request_iff :
  (exists message, fst (Asr.asr env dirname audioPath) = Fail 400 message)
  <-> (exists credentials,
         Credentials.loadCredentials (Asr.fs env) dirname = inr credentials)
      /\ Credentials.existsSync (Asr.fs env) fullPath = false.
Proof.
  unfold Asr.asr. fold fullPath.
  destruct (Credentials.loadCredentials (Asr.fs env) dirname) as [m|credentials].
  { split; [intros [message H]; discriminate | intros [[c H] _]; discriminate]. }
  destruct (Credentials.existsSync (Asr.fs env) fullPath); cbn [negb].
  2: { split; [intros _; split; [now exists credentials | reflexivity]
              | intros _; eexists; reflexivity]. }
  split; [|intros [_ H]; discriminate].
  intros [message H]. exfalso.
  destruct (Asr.readBytes env fullPath); [discriminate|].
  destruct (Credentials.get (js "PIE_APP_SECRET") credentials); [|discriminate].
  destruct (Asr.fetch env _) as [m|response]; [discriminate|].
  destruct (Asr.ok response); cbn [negb] in H; [|discriminate].
  destruct (Asr.json response); [discriminate|].
  destruct (Asr.writeFileSync env _ _); discriminate.
Qed.
End Recognition.

Lemma asr_without_credentials_witness :
  let env := {| Asr.fs := {| Credentials.existsSync := fun _ => false;
                             Credentials.readFileSync := fun _ => inl [] |};
                Asr.readBytes := fun _ => inr [];
                Asr.fetch := fun _ => inl [];
                Asr.writeFileSync := fun _ _ => None;
                Asr.hmac_sha256_hex := fun key message => key ++ message;
                Asr.invalid_key := [];
                Asr.now := 0;
                Asr.source := fun _ => 0 |} in
  Asr.asr env (js "/srv/app") (js "/uploads/17-talk.mp3")
  = (Fail 500 (js "凭据文件不存在，请先运行 create-app"), []).
Proof.
  intros env.
  apply (asr_without_credentials env (js "/srv/app") (js "/uploads/17-talk.mp3"));
    reflexivity.
Defined.

Lemma asr_fetch_when_ready_witness :
  exists request credentials appSecret audioBuffer,
    first_request (snd (Asr.asr (sample_world sample_answer) (js "/srv/app")
                          (js "/uploads/17-talk.mp3"))) = Some request
    /\ Credentials.get (js "PIE_APP_SECRET") credentials = Some appSecret
    /\ Asr.body request = Asr.requestBody (Asr.base64 audioBuffer)
    /\ Asr.url request = js "https://gw.example/asr/volcengine_quick".
Proof.
  destruct (first_request (snd (Asr.asr (sample_world sample_answer) (js "/srv/app")
                                  (js "/uploads/17-talk.mp3"))))
    as [request|] eqn:Hfirst; [|vm_compute in Hfirst; discriminate].
  assert (Hin : In (Asr.Fetch request)
                   (snd (Asr.asr (sample_world sample_answer) (js "/srv/app")
                           (js "/uploads/17-talk.mp3")))).
  { destruct (snd (Asr.asr (sample_world sample_answer) (js "/srv/app")
                     (js "/uploads/17-talk.mp3"))) as [|[r|e] rest];
      cbn [first_request] in Hfirst; try discriminate.
    injection Hfirst as ->. now left. }
  destruct (asr_fetch_when_ready (sample_world sample_answer) (js "/srv/app")
              (js "/uploads/17-talk.mp3") request Hin)
    as (credentials & appSecret & audioBuffer & Hload & Hsecret & _ & _ & _ & Hurl & Hbody).
  exists request, credentials, appSecret, audioBuffer.
  split_all; [reflexivity | exact Hsecret | exact Hbody |].
  rewrite Hurl. vm_compute in Hload. injection Hload as <-. vm_compute. reflexivity.
Defined.

Lemma asr_writes_after_ok_witness :
  exists request response data,
    Asr.fetch (sample_world sample_answer) request = inr response
    /\ Asr.ok response = true
    /\ Asr.json response = inr data
    /\ js "1" ++ nl ++ js "00:00:00,000 --> 00:00:01,200" ++ nl ++ js "Hi there" ++ nl ++ nl
       = generateSRT (Asr.utterances data).
Proof.
  destruct (asr_writes_after_ok (sample_world sample_answer) (js "/srv/app")
              (js "/uploads/17-talk.mp3")
              (js "/srv/app/outputs/17-talk.srt")
              (js "1" ++ nl ++ js "00:00:00,000 --> 00:00:01,200" ++ nl
                 ++ js "Hi there" ++ nl ++ nl))
    as (request & response & data & Hfetch & Hok & Hjson & Hcontent & _).
  - vm_compute. right. left. reflexivity.
  - exists request, response, data. split_all; assumption.
Defined.

Lemma asr_upstream_failure_witness :
  exists request,
    Asr.asr (sample_world sample_refusal) (js "/srv/app") (js "/uploads/17-talk.mp3")
    = (Fail 500 (js "ASR 请求失败: " ++ Z_toString 403 ++ js " - " ++ js "bad signature"),
       [Asr.Fetch request]).
Proof.
  apply (asr_upstream_failure (sample_world sample_refusal) (js "/srv/app")
           (js "/uploads/17-talk.mp3")
           [(js "PIE_GATEWAY_PATH", js "https://gw.example");
            (js "PIE_APP_SECRET", js "s3cret"); (js "PIE_APP_ID", js "app-42")]
           (js "s3cret") [72; 105] sample_refusal).
  - vm_compute. reflexivity.
  - vm_compute. reflexivity.
  - vm_compute. reflexivity.
  - reflexivity.
  - intros request. reflexivity.
  - reflexivity.
Defined.
